(** * The lint extension (src/lint.ts): state field, commands, re-lint
      scheduler and panel list, embedded as Rocq functions.

    Object identity.  The TypeScript code compares [Diagnostic] objects with
    [==] / [!=], hands [LintState] objects around by reference and keeps
    [PanelItem] objects alive across panel updates.  Every object whose
    identity is observed carries its reference (an address) as a record
    field; [new] takes the address from an allocation counter.

    Numbers.  Document positions are offsets into the text and are modelled
    as [N]; clock readings and timer delays are subtracted from each other
    and are modelled as [Z].  The offsets a diagnostic arrives with are not
    checked by the code; module [LintNumbers] repeats the step that builds
    the anchors with offsets in [Z]. *)

From stdpp Require Import base numbers list strings sorting.

Local Open Scope N_scope.

(** ** The editing substrate (packages [state] and [view])

    lint.ts imports change sets, range sets and decorations from sibling
    packages that are not part of this source tree.  They are modelled here
    from the contract the specification gives for them. *)
Module Substrate.

(** Modelled from the spec: one replacement of a change descriptor; the
    text in [cfrom, cto) is replaced by [cinsert] characters. *)
Record Change := mkChange { cfrom : N; cto : N; cinsert : N }.

(** Modelled from the spec: the change descriptor of a transaction (absent
    from the tree); the changes apply one after the other. *)
Definition ChangeSet := list Change.

(** Modelled from the spec: [mapPosition(pos, bias)] for one change.  A
    position before the change stays, one after it shifts by the length
    difference, one at the boundary of an insertion goes with the
    following text when [bias] is positive. *)
Definition Change_mapPos (c : Change) (pos : N) (bias : Z) : N :=
  if pos <? cfrom c then pos
  else if cto c <? pos then pos + cinsert c - (cto c - cfrom c)
  else if (pos =? cfrom c) || (pos =? cto c) then
    if (if cfrom c =? cto c then (bias <=? 0)%Z else pos =? cfrom c)
    then cfrom c else cfrom c + cinsert c
  else cfrom c + (if (bias <=? 0)%Z then 0 else cinsert c).

(** Modelled from the spec: [changes.mapPos(pos, bias)]. *)
Definition mapPos (changes : ChangeSet) (pos : N) (bias : Z) : N :=
  fold_left (fun p c => Change_mapPos c p bias) changes pos.

(** Modelled from the spec: "a way to detect that this transaction changed
    the document". *)
Definition ChangeSet_nonempty (changes : ChangeSet) : bool :=
  match changes with [] => false | _ :: _ => true end.

(** Modelled from the spec: an entry (from, to, payload) of a
    RangeAnchorSet. *)
Record Range (V : Type) := mkRange { rfrom : N; rto : N; value : V }.
Arguments mkRange {V} _ _ _.
Arguments rfrom {V} _.
Arguments rto {V} _.
Arguments value {V} _.

(** Modelled from the spec: RangeAnchorSet, "ordered-by-position
    collection" (ascending [from], ties broken by ascending [to]). *)
Definition RangeSet (V : Type) := list (Range V).

(** Modelled from the spec: the order of the collection. *)
Definition Range_leb {V} (a b : Range V) : bool :=
  (rfrom a <? rfrom b) || ((rfrom a =? rfrom b) && (rto a <=? rto b)).

(** Modelled from the spec: insertion that keeps the order; [x] goes
    before the first entry it does not exceed. *)
Fixpoint RangeSet_insert {V} (x : Range V) (s : RangeSet V) : RangeSet V :=
  match s with
  | [] => [x]
  | y :: s' => if Range_leb x y then x :: y :: s' else y :: RangeSet_insert x s'
  end.

(** Modelled from the spec: building a set from ranges given in any
    order. *)
Definition RangeSet_of {V} (ranges : list (Range V)) : RangeSet V :=
  foldr RangeSet_insert [] ranges.

(** Modelled from the spec: [set.length], the extent the set covers. *)
Definition RangeSet_length {V} (s : RangeSet V) : N :=
  foldr (fun r acc => N.max (rto r) acc) 0 s.

(** Modelled from the spec: [query(queryFrom, queryTo, visitor)], "visits
    all entries overlapping the range in position order; visitor may halt
    early".  The visitor threads its captured variables as [acc] and
    answers [false] exactly when the callback returns [false]. *)
Fixpoint between {V S} (s : RangeSet V) (from to : N)
    (f : N -> N -> V -> S -> S * bool) (acc : S) : S :=
  match s with
  | [] => acc
  | r :: s' =>
      if (rfrom r <=? to) && (from <=? rto r) then
        let '(acc', continue) := f (rfrom r) (rto r) (value r) acc in
        if continue then between s' from to f acc' else acc'
      else between s' from to f acc
  end.

(** Modelled from the spec: [remap(change)], "every anchor passed through
    the document change's position-mapping function", forward biased; a
    range that collapses stays as a point. *)
Definition Range_map {V} (changes : ChangeSet) (r : Range V) : Range V :=
  mkRange (mapPos changes (rfrom r) 1) (mapPos changes (rto r) 1) (value r).

(** Modelled from the spec: [remap(change)] on the whole set, rebuilt in
    order.  Every anchor is kept; which anchors an edit deletes outright is
    not modelled. *)
Definition RangeSet_map {V} (changes : ChangeSet) (s : RangeSet V) : RangeSet V :=
  RangeSet_of (map (Range_map changes) s).


(** An entry [between from to] reports. *)
Definition overlaps {V} (from to : N) (r : Range V) : bool :=
  (rfrom r <=? to) && (from <=? rto r).

End Substrate.

Import Substrate.

(** ** Diagnostics, decorations and the lint state (lint.ts 7-100) *)
Module Lint.

(** lint.ts 8-26 and 29-36. *)
Inductive Severity := info | warning | error.

Definition Severity_name (s : Severity) : string :=
  match s with info => "info" | warning => "warning" | error => "error" end.

(** [apply] is a callback into the view and is left out. *)
Record Action := mkAction { name : string }.

(** An address: what [==] compares on objects. *)
Definition Ref := nat.

Record Diagnostic := mkDiagnostic {
  ref : Ref;
  from : N;
  to : N;
  severity : Severity;
  source : option string;
  message : string;
  actions : option (list Action)
}.
Arguments mkDiagnostic ref%_nat from to severity source message actions.

(** [a == b] on two diagnostics. *)
Definition Diagnostic_same (a b : Diagnostic) : bool := Nat.eqb (ref a) (ref b).

(** Modelled from the spec: [themeClass] of the view package (rendering
    layer), kept uninterpreted. *)
Inductive ClassName := themeClass (selector : string).

Record DiagnosticWidget := mkDiagnosticWidget { widget_value : Diagnostic }.

(** lint.ts 73-80: the two decoration specs built there, each with its
    [diagnostic] property. *)
Inductive Decoration :=
| MarkDecoration (attributes_class : ClassName) (diagnostic : Diagnostic)
| WidgetDecoration (widget : DiagnosticWidget) (diagnostic : Diagnostic).

Definition spec_diagnostic (d : Decoration) : Diagnostic :=
  match d with
  | MarkDecoration _ diagnostic => diagnostic
  | WidgetDecoration _ diagnostic => diagnostic
  end.

(** Modelled from the spec: [Decoration.mark(from, to, spec)], a span
    anchor, and [Decoration.widget(pos, spec)], a point anchor. *)
Definition Decoration_mark (from to : N) (class : ClassName) (d : Diagnostic)
  : Range Decoration := mkRange from to (MarkDecoration class d).

Definition Decoration_widget (pos : N) (w : DiagnosticWidget) (d : Diagnostic)
  : Range Decoration := mkRange pos pos (WidgetDecoration w d).

(** Modelled from the spec: [DecorationSet], [Decoration.none] and
    [Decoration.set(ranges)]. *)
Definition DecorationSet := RangeSet Decoration.
Definition Decoration_none : DecorationSet := [].
Definition Decoration_set (ranges : list (Range Decoration)) : DecorationSet :=
  RangeSet_of ranges.

(** lint.ts 38-40. *)
Record SelectedDiagnostic := mkSelected {
  sel_from : N;
  sel_to : N;
  sel_diagnostic : Diagnostic
}.

(** The only panel constructor ever stored is [LintPanel.open]. *)
Inductive PanelConstructor := LintPanel_open.

(** lint.ts 42-46, with the object's address. *)
Record LintState := mkLintState {
  ls_ref : Ref;
  diagnostics : DecorationSet;
  panel : option PanelConstructor;
  selected : option SelectedDiagnostic
}.
Arguments mkLintState ls_ref%_nat diagnostics panel selected.

(** Allocation: a computation reads and advances the next free address. *)
Definition Alloc (A : Type) := Ref -> A * Ref.
Definition ret {A} (a : A) : Alloc A := fun next => (a, next).
Definition new_LintState (d : DecorationSet) (p : option PanelConstructor)
    (s : option SelectedDiagnostic) : Alloc LintState :=
  fun next => (mkLintState next d p s, S next).

(** lint.ts 48-56. *)
Definition findDiagnostic (diagnostics : DecorationSet)
    (diagnostic : option Diagnostic) (after : N) : option SelectedDiagnostic :=
  between diagnostics after (RangeSet_length diagnostics)
    (fun from to deco found =>
       if match diagnostic with
          | Some d => negb (Diagnostic_same (spec_diagnostic deco) d)
          | None => false
          end
       then (found, true)
       else (Some (mkSelected from to (spec_diagnostic deco)), false))
    None.

(** Modelled from the spec: a transaction as [update] reads it, the two
    annotations ([tr.annotation(setDiagnostics)], [tr.annotation(setState)])
    and the changes. *)
Record Transaction := mkTransaction {
  annotation_setDiagnostics : option (list Diagnostic);
  annotation_setState : option LintState;
  changes : ChangeSet
}.

(** Modelled from the spec: [tr.docChanged]. *)
Definition docChanged (tr : Transaction) : bool := ChangeSet_nonempty (changes tr).

(** lint.ts 72-80: the callback of [setDiag.map]. *)
Definition diagnosticRange (d : Diagnostic) : Range Decoration :=
  if from d <? to d
  then Decoration_mark (from d) (to d)
         (themeClass ("lintRange." +:+ Severity_name (severity d))) d
  else Decoration_widget (from d) (mkDiagnosticWidget d) d.

(** lint.ts 65-67. *)
Definition create : Alloc LintState := new_LintState Decoration_none None None.

(** lint.ts 68-98.  The third parameter [state] of the source is not read
    by the body and is left out. *)
Definition update (value : LintState) (tr : Transaction) : Alloc LintState :=
  match annotation_setDiagnostics tr with
  | Some setDiag =>
      let ranges := Decoration_set (map diagnosticRange setDiag) in
      new_LintState ranges (panel value) (findDiagnostic ranges None 0)
  | None =>
      match annotation_setState tr with
      | Some newState => ret newState
      | None =>
          if docChanged tr then
            let mapped := RangeSet_map (changes tr) (diagnostics value) in
            let selected :=
              match selected value with
              | Some sel =>
                  let selPos := mapPos (changes tr) (sel_from sel) 1 in
                  match findDiagnostic mapped (Some (sel_diagnostic sel)) selPos with
                  | Some found => Some found
                  | None => findDiagnostic mapped None selPos
                  end
              | None => None
              end in
            new_LintState mapped (panel value) selected
          else ret value
      end
  end.

End Lint.

Import Lint.

(** ** The editor view and the two panel commands (lint.ts 146-163) *)
Module Commands.

(** Modelled from the spec: the editor state as far as lint.ts reads it,
    the document length and the slot of the [lintState] field, empty when
    the extension is not installed. *)
Record EditorState := mkEditorState {
  doc_length : N;
  field_lintState : option LintState
}.

(** Where keyboard focus is. *)
Inductive Focus := FocusEditor | FocusLintPanelList.

(** Modelled from the spec: the view, its current state, every transaction dispatched so far
    (oldest first), the focus, and the allocation counter of the heap the
    view's objects live in. *)
Record EditorView := mkEditorView {
  state : EditorState;
  dispatched : list Transaction;
  focus : Focus;
  next_ref : Ref
}.
Arguments mkEditorView state dispatched focus next_ref%_nat.

(** Modelled from the spec: [state.t()], a transaction with no annotation
    and no change. *)
Definition state_t : Transaction := mkTransaction None None [].

(** Modelled from the spec: [tr.annotate(setState(s))]. *)
Definition annotate_setState (tr : Transaction) (s : LintState) : Transaction :=
  mkTransaction (annotation_setDiagnostics tr) (Some s) (changes tr).

(** Modelled from the spec: [tr.annotate(setDiagnostics(ds))]. *)
Definition annotate_setDiagnostics (tr : Transaction) (ds : list Diagnostic)
  : Transaction :=
  mkTransaction (Some ds) (annotation_setState tr) (changes tr).

(** Modelled from the spec: the document length after a change. *)
Definition Change_apply_length (len : N) (c : Change) : N :=
  len + cinsert c - (cto c - cfrom c).

(** Modelled from the spec: applying a transaction gives the next editor
    state; the lint field, when installed, goes through [Lint.update]. *)
Definition Transaction_apply (tr : Transaction) (s : EditorState)
  : Alloc EditorState :=
  fun next =>
    let len := fold_left Change_apply_length (changes tr) (doc_length s) in
    match field_lintState s with
    | None => (mkEditorState len None, next)
    | Some value =>
        let '(value', next') := update value tr next in
        (mkEditorState len (Some value'), next')
    end.

(** Modelled from the spec: [view.dispatch(tr)]. *)
Definition dispatch (tr : Transaction) (view : EditorView) : EditorView :=
  let '(s', next') := Transaction_apply tr (state view) (next_ref view) in
  mkEditorView s' (dispatched view ++ [tr]) (focus view) next'.

(** What a command call ends with: a returned boolean, or an exception
    ([state.field(lintState)] throws when the field is missing). *)
Inductive Outcome := Return (b : bool) | Throw.

(** lint.ts 147-155.  The panel's list element is taken to exist whenever
    the state has a panel (the panel package renders it). *)
Definition openLintPanel (view : EditorView) : Outcome * EditorView :=
  match field_lintState (state view) with
  | None => (Return false, view)
  | Some field =>
      let view1 :=
        match panel field with
        | None =>
            let '(payload, next') :=
              new_LintState (diagnostics field) (Some LintPanel_open)
                (selected field) (next_ref view) in
            dispatch (annotate_setState state_t payload)
              (mkEditorView (state view) (dispatched view) (focus view) next')
        | Some _ => view
        end in
      match field_lintState (state view1) with
      | None => (Throw, view1)
      | Some field1 =>
          let view2 :=
            match panel field1 with
            | Some _ =>
                mkEditorView (state view1) (dispatched view1)
                  FocusLintPanelList (next_ref view1)
            | None => view1
            end in
          (Return true, view2)
      end
  end.

(** lint.ts 158-163. *)
Definition closeLintPanel (view : EditorView) : Outcome * EditorView :=
  match field_lintState (state view) with
  | None => (Return false, view)
  | Some field =>
      match panel field with
      | None => (Return false, view)
      | Some _ =>
          let '(payload, next') :=
            new_LintState (diagnostics field) None (selected field)
              (next_ref view) in
          (Return true,
           dispatch (annotate_setState state_t payload)
             (mkEditorView (state view) (dispatched view) (focus view) next'))
      end
  end.

End Commands.

Import Commands.

(** ** The re-lint scheduler (lint.ts 165-206) *)
Module Scheduler.

Local Open Scope Z_scope.

Definition LintDelay : Z := 500.

(** The two instance fields of [RunLintPlugin]. *)
Record RunLintPlugin := mkRunLintPlugin { lintTime : Z; set : bool }.

(** The plugin in its environment: the clock [Date.now()] reads, the view
    it dispatches to, the due times of the [setTimeout(this.run, _)]
    callbacks still pending, and the clock readings at which the source
    was called (oldest first). *)
Record World := mkWorld {
  clock : Z;
  view : EditorView;
  plugin : RunLintPlugin;
  timers : list Z;
  invoked : list Z
}.

(** Modelled from the spec: [setTimeout(this.run, delay)], the single
    deferred-callback timer; the callback is due [delay] from now. *)
Definition setTimeout (delay : Z) (w : World) : World :=
  mkWorld (clock w) (view w) (plugin w) (timers w ++ [clock w + delay]) (invoked w).

Section WithSource.

(** The diagnostic source handed to [linter]. *)
Variable source : EditorView -> list Diagnostic.

(** lint.ts 172-179: field initialisers and constructor, at clock
    reading [now]. *)
Definition constructor (now : Z) (v : EditorView) : World :=
  setTimeout LintDelay
    (mkWorld now v (mkRunLintPlugin (now + LintDelay) true) [] []).

(** lint.ts 192-200: [update(update)], given [update.docChanged]. *)
Definition update (update_docChanged : bool) (w : World) : World :=
  if update_docChanged then
    let w1 := mkWorld (clock w) (view w)
                (mkRunLintPlugin (clock w + LintDelay) (set (plugin w)))
                (timers w) (invoked w) in
    if negb (set (plugin w1)) then
      setTimeout LintDelay
        (mkWorld (clock w1) (view w1)
           (mkRunLintPlugin (lintTime (plugin w1)) true)
           (timers w1) (invoked w1))
    else w1
  else w.

(** Modelled from the spec: the view dispatches a transaction and
    notifies its plugins. *)
Definition view_dispatch (tr : Transaction) (w : World) : World :=
  update (docChanged tr)
    (mkWorld (clock w) (dispatch tr (view w)) (plugin w) (timers w) (invoked w)).

(** lint.ts 181-190: [run()]. *)
Definition run (w : World) : World :=
  let now := clock w in
  if now <? lintTime (plugin w) - 10 then
    setTimeout (lintTime (plugin w) - now) w
  else
    let w1 := mkWorld (clock w) (view w)
                (mkRunLintPlugin (lintTime (plugin w)) false)
                (timers w) (invoked w ++ [now]) in
    view_dispatch (annotate_setDiagnostics state_t (source (view w1))) w1.

(** Removing one pending timer. *)
Fixpoint remove_timer (due : Z) (ts : list Z) : list Z :=
  match ts with
  | [] => []
  | t :: ts' => if t =? due then ts' else t :: remove_timer due ts'
  end.

(** What happens to the plugin from outside: the user edits the document
    at some clock reading, or a pending timer goes off. *)
Inductive Event :=
| Edit (at_time : Z) (ch : ChangeSet)
| TimerFires (due : Z) (at_time : Z).

Definition advance (t : Z) (w : World) : World :=
  mkWorld t (view w) (plugin w) (timers w) (invoked w).

Definition handle (e : Event) (w : World) : World :=
  match e with
  | Edit t ch => view_dispatch (mkTransaction None None ch) (advance t w)
  | TimerFires due t =>
      run (mkWorld t (view w) (plugin w) (remove_timer due (timers w)) (invoked w))
  end.

(** An event the environment can deliver: time does not run backwards;
    an edit changes the document; a timer that goes off is pending and
    due. *)
Definition deliverable (e : Event) (w : World) : Prop :=
  match e with
  | Edit t ch => clock w <= t /\ ch <> []
  | TimerFires due t => due ∈ timers w /\ clock w <= t /\ due <= t
  end.

Inductive reachable : World -> Prop :=
| reachable_start now v : reachable (constructor now v)
| reachable_step e w : reachable w -> deliverable e w -> reachable (handle e w).

(** The earliest pending timer. *)
Definition next_timer (ts : list Z) : option Z :=
  match ts with
  | [] => None
  | t :: ts' => Some (foldr Z.min t ts')
  end.

(** An exact-timer event loop: the edits (ascending clock readings) and
    the pending timers are served in time order, every timer exactly
    when due, until nothing is left.  [None]: the step budget ran
    out. *)
Fixpoint simulate (budget : nat) (edits : list (Z * ChangeSet)) (w : World)
  : option World :=
  match budget with
  | O => None
  | S budget' =>
      match edits, next_timer (timers w) with
      | [], None => Some w
      | (t, ch) :: edits', None => simulate budget' edits' (handle (Edit t ch) w)
      | [], Some due => simulate budget' [] (handle (TimerFires due due) w)
      | (t, ch) :: edits', Some due =>
          if t <=? due
          then simulate budget' edits' (handle (Edit t ch) w)
          else simulate budget' edits (handle (TimerFires due due) w)
      end
  end.

End WithSource.

End Scheduler.

(** ** The panel's item list (lint.ts 234-339) *)
Module Panel.

(** lint.ts 234-242: a list item.  [item_ref] is the object's address and
    stands for its random [id] string as well; [aria_selected] is whether
    its DOM node has the [aria-selected] attribute. *)
Record PanelItem := mkPanelItem {
  item_ref : Ref;
  item_diagnostic : Diagnostic;
  aria_selected : bool
}.
Arguments mkPanelItem item_ref%_nat item_diagnostic aria_selected.

(** [new PanelItem(view, diagnostic)]. *)
Definition new_PanelItem (d : Diagnostic) : Alloc PanelItem :=
  fun next => (mkPanelItem next d false, S next).

(** The panel object: its items, the list's [aria-activedescendant]
    (the item it names), and how often [sync()] ran. *)
Record LintPanel := mkLintPanel {
  items : list PanelItem;
  activedescendant : option Ref;
  sync_calls : nat
}.

(** The loop of lint.ts 304-305: the first index [j], counted from the
    index [j] of the head of [rest], whose item shows [d]. *)
Fixpoint search (rest : list PanelItem) (j : nat) (d : Diagnostic) : option nat :=
  match rest with
  | [] => None
  | it :: rest' =>
      if Diagnostic_same (item_diagnostic it) d then Some j
      else search rest' (S j) d
  end.

(** [items.splice(i, 0, item)] and [items.splice(i, n)]. *)
Definition splice_insert {A} (i : nat) (x : A) (l : list A) : list A :=
  take i l ++ x :: drop i l.
Definition splice_remove {A} (i n : nat) (l : list A) : list A :=
  take i l ++ drop (i + n) l.

(** The variables the callback of [between] reads and writes. *)
Record Walk := mkWalk {
  w_items : list PanelItem;
  w_i : nat;
  w_needsSync : bool;
  w_newSelectedItem : option PanelItem;
  w_next : Ref
}.

(** lint.ts 303-313: the item for diagnostic [d] at cursor [i], found
    ahead (the stale items before it spliced out) or newly created and
    spliced in.  Gives the item, the list, [needsSync] and the allocation
    counter. *)
Definition locate (d : Diagnostic) (w : Walk)
  : PanelItem * list PanelItem * bool * Ref :=
  let i := w_i w in
  match search (drop i (w_items w)) i d with
  | None =>
      let '(item, next') := new_PanelItem d (w_next w) in
      (item, splice_insert i item (w_items w), true, next')
  | Some found =>
      let item := default (mkPanelItem 0 d false) (w_items w !! found) in
      if (i <? found)%nat
      then (item, splice_remove i (found - i) (w_items w), true, w_next w)
      else (item, w_items w, w_needsSync w, w_next w)
  end.

(** lint.ts 314-321: the [aria-selected] attribute of the item's DOM node
    is brought in line with the selection.  Gives the item as it is
    afterwards and [newSelectedItem]. *)
Definition restyle (selected : option SelectedDiagnostic) (item : PanelItem)
    (newSelectedItem : option PanelItem) : PanelItem * option PanelItem :=
  if match selected with
     | Some s => Diagnostic_same (item_diagnostic item) (sel_diagnostic s)
     | None => false
     end
  then
    if negb (aria_selected item)
    then let it := mkPanelItem (item_ref item) (item_diagnostic item) true in
         (it, Some it)
    else (item, newSelectedItem)
  else
    if aria_selected item
    then (mkPanelItem (item_ref item) (item_diagnostic item) false, newSelectedItem)
    else (item, newSelectedItem).

(** lint.ts 302-323: the callback, for one visited decoration.  The item
    is an object inside [items]; its changed attribute shows at its index
    [i]. *)
Definition visit (selected : option SelectedDiagnostic) (deco : Decoration)
    (w : Walk) : Walk :=
  let '(item, items1, needsSync1, next1) := locate (spec_diagnostic deco) w in
  let '(item2, newSelected2) := restyle selected item (w_newSelectedItem w) in
  mkWalk (<[w_i w := item2]> items1) (S (w_i w)) needsSync1 newSelected2 next1.

(** lint.ts 299-339: [update()], for the panel of a view whose lint field
    is [field]. *)
Definition update (doc_length : N) (field : LintState) (p : LintPanel)
  : Alloc LintPanel :=
  fun next =>
    let w :=
      between (diagnostics field) 0 doc_length
        (fun _ _ deco w => (visit (selected field) deco w, true))
        (mkWalk (items p) 0%nat false None next) in
    let items' := take (w_i w) (w_items w) in
    let active :=
      match w_newSelectedItem w with
      | Some it => Some (item_ref it)
      | None => match items' with [] => None | _ :: _ => activedescendant p end
      end in
    (mkLintPanel items' active
       (if w_needsSync w then S (sync_calls p) else sync_calls p),
     w_next w).

(** Modelled from the spec: [tr.setSelection(EditorSelection.single(anchor,
    head))] on a transaction of a state whose document has [len]
    characters.  The state package refuses a selection that points outside
    the document with a [RangeError], here [None]; the transaction model
    does not record the selection otherwise. *)
Definition setSelection_single (len anchor head : N) (tr : Transaction)
  : option Transaction :=
  if (len <? anchor) || (len <? head) then None else Some tr.

(** lint.ts 364-374: [moveSelection(selectedIndex)].  [None] stands for an
    exception: a missing lint field, an index with no item, or the
    [RangeError] of a selection that points outside the document; nothing
    is dispatched then. *)
Definition moveSelection (selectedIndex : nat) (p : LintPanel) (view : EditorView)
  : option EditorView :=
  match items p with
  | [] => Some view
  | _ :: _ =>
      match field_lintState (state view), items p !! selectedIndex with
      | Some field, Some item =>
          match findDiagnostic (diagnostics field) (Some (item_diagnostic item)) 0 with
          | None => Some view
          | Some selection =>
              match setSelection_single (doc_length (state view))
                      (sel_from selection) (sel_to selection) state_t with
              | None => None
              | Some tr =>
                  let '(payload, next') :=
                    new_LintState (diagnostics field) (panel field) (Some selection)
                      (next_ref view) in
                  Some (dispatch (annotate_setState tr payload)
                          (mkEditorView (state view) (dispatched view) (focus view) next'))
              end
          end
      | _, _ => None
      end
  end.

(** *** The reconciler as the specification words it *)

(** The first item of [tail] showing [d], with the items skipped before
    it and the items left after it. *)
Fixpoint search_forward (tail : list PanelItem) (d : Diagnostic)
  : option (list PanelItem * PanelItem * list PanelItem) :=
  match tail with
  | [] => None
  | it :: tail' =>
      if Diagnostic_same (item_diagnostic it) d then Some ([], it, tail')
      else
        match search_forward tail' d with
        | Some (skipped, found, rest) => Some (it :: skipped, found, rest)
        | None => None
        end
  end.

(** What one pass produces: the new list, the previous items removed and
    the items created. *)
Record Script := mkScript {
  result : list PanelItem;
  removed : list PanelItem;
  created : list PanelItem
}.

(** The single forward pass of the specification (section 4.4) over the
    current diagnostics: a found item is reused and the items skipped
    before it are removed; otherwise a new item is created at the cursor;
    at the end the remaining tail is removed. *)
Fixpoint reconcile (tail : list PanelItem) (current : list Diagnostic)
    (next : Ref) : Script * Ref :=
  match current with
  | [] => (mkScript [] tail [], next)
  | d :: current' =>
      match search_forward tail d with
      | Some (skipped, found, rest) =>
          let '(s, next') := reconcile rest current' next in
          (mkScript (found :: result s) (skipped ++ removed s) (created s), next')
      | None =>
          let '(item, next1) := new_PanelItem d next in
          let '(s, next') := reconcile tail current' next1 in
          (mkScript (item :: result s) (removed s) (item :: created s), next')
      end
  end.

(** An item up to its DOM attributes: which object it is and what it
    shows. *)
Definition item_identity (it : PanelItem) : Ref * Diagnostic :=
  (item_ref it, item_diagnostic it).

(** The diagnostics [between 0 doc_length] visits, in order. *)
Definition visited_diagnostics (doc_length : N) (s : DecorationSet)
  : list Diagnostic :=
  map (fun r => spec_diagnostic (value r)) (List.filter (overlaps 0 doc_length) s).

End Panel.

(** ** Example data for the commands and the scheduler *)
Module Examples.

(** A view with the lint field installed, empty, panel closed. *)
Definition attached_view : EditorView :=
  mkEditorView (mkEditorState 20 (Some (create 0%nat).1)) [] FocusEditor 1.

(** A view of a state without the lint field. *)
Definition detached_view : EditorView :=
  mkEditorView (mkEditorState 20 None) [] FocusEditor 0.

(** A source that reports one warning at the second [x] of
    "let x = 1\nlet x = 2". *)
Definition redeclared_source (_ : EditorView) : list Diagnostic :=
  [mkDiagnostic 100 15 16 warning None "redeclared x" None].

(** Typing one character at the start of the document. *)
Definition type_char : ChangeSet := [mkChange 0 0 1].

(** Four diagnostics A, B, C, D at ascending positions. *)
Definition diag_A := mkDiagnostic 1 0 3 error None "A" None.
Definition diag_B := mkDiagnostic 2 5 8 warning None "B" None.
Definition diag_C := mkDiagnostic 3 10 12 info None "C" None.
Definition diag_D := mkDiagnostic 4 14 14 warning None "D" None.

(** A panel that shows A, B and C, with A selected. *)
Definition item_A := Panel.mkPanelItem 50 diag_A true.
Definition item_B := Panel.mkPanelItem 51 diag_B false.
Definition item_C := Panel.mkPanelItem 52 diag_C false.
Definition panel_ABC : Panel.LintPanel :=
  Panel.mkLintPanel [item_A; item_B; item_C] (Some 50%nat) 0.

(** The lint field after the source reported D, C and A. *)
Definition field_ACD : LintState :=
  (Lint.update (create 0%nat).1
     (mkTransaction (Some [diag_D; diag_C; diag_A]) None []) 1%nat).1.

(** A diagnostic that ends beyond the 20 characters of the document, with
    a panel and a lint field that show it. *)
Definition diag_E := mkDiagnostic 5 3 30 error None "E" None.
Definition item_E := Panel.mkPanelItem 53 diag_E false.
Definition panel_E : Panel.LintPanel := Panel.mkLintPanel [item_E] None 0.
Definition field_E : LintState :=
  (Lint.update (create 0%nat).1 (mkTransaction (Some [diag_E]) None []) 1%nat).1.

End Examples.

Import Scheduler Panel.

(** ** Notions the properties of the state field are stated with *)
Module LintSpec.

(** The selection that names an anchor. *)
Definition selectedOf (r : Range Decoration) : SelectedDiagnostic :=
  mkSelected (rfrom r) (rto r) (spec_diagnostic (value r)).

(** Span anchors are mark decorations, point anchors widget decorations. *)
Inductive AnchorKind := Span | Point.

Definition anchor_kind (r : Range Decoration) : AnchorKind :=
  match value r with
  | MarkDecoration _ _ => Span
  | WidgetDecoration _ _ => Point
  end.

(** A selection resolves to a live entry of an anchor set. *)
Definition resolves (sel : SelectedDiagnostic) (s : DecorationSet) : Prop :=
  exists r, r ∈ s /\ selectedOf r = sel.

Definition selected_live (st : LintState) : Prop :=
  match selected st with
  | None => True
  | Some sel => resolves sel (diagnostics st)
  end.

(** No anchor ends before it starts. *)
Definition anchors_ok (s : DecorationSet) : Prop :=
  Forall (fun r => rfrom r <= rto r) s.

(** An anchor lies inside a document of length [len]. *)
Definition in_document (len : N) (r : Range Decoration) : Prop :=
  rfrom r <= rto r /\ rto r <= len.

(** What [findDiagnostic] lets pass: any anchor, or those showing the given
    diagnostic. *)
Definition accepts (diagnostic : option Diagnostic) (r : Range Decoration) : bool :=
  match diagnostic with
  | Some d => Diagnostic_same (spec_diagnostic (value r)) d
  | None => true
  end.

(** An anchor reaches position [pos] or lies after it. *)
Definition at_or_after (pos : N) (r : Range Decoration) : bool :=
  pos <=? rto r.

Definition shows (d : Diagnostic) (r : Range Decoration) : bool :=
  Diagnostic_same (spec_diagnostic (value r)) d.

(** [setState] is private to lint.ts.  The states it carries are built at
    three places, each from the field of the state the transaction starts
    from: [openLintPanel] (panel closed), [closeLintPanel] (panel open) and
    [moveSelection] (for the diagnostic [d] of a panel item). *)
Inductive setState_payload (value : LintState) : LintState -> Prop :=
| payload_open next :
    panel value = None ->
    setState_payload value
      (new_LintState (diagnostics value) (Some LintPanel_open) (selected value) next).1
| payload_close next :
    panel value <> None ->
    setState_payload value
      (new_LintState (diagnostics value) None (selected value) next).1
| payload_move d selection next :
    findDiagnostic (diagnostics value) (Some d) 0 = Some selection ->
    setState_payload value
      (new_LintState (diagnostics value) (panel value) (Some selection) next).1.

(** A transaction that can reach the field's [update] for [value]. *)
Definition admissible (value : LintState) (tr : Transaction) : Prop :=
  match annotation_setState tr with
  | None => True
  | Some newState => setState_payload value newState
  end.

Inductive reachable : LintState -> Prop :=
| reachable_create next : reachable (create next).1
| reachable_update value tr next :
    reachable value -> admissible value tr ->
    reachable (Lint.update value tr next).1.

(** *** Example data *)

Definition diag_at (r : Ref) (from to : N) : Diagnostic :=
  mkDiagnostic r from to warning None "redeclared x" None.
Arguments diag_at r%_nat from to.

(** A state whose selected diagnostic covers [10, 15), between two other
    diagnostics. *)
Definition sticky_before : LintState :=
  mkLintState 0
    (Decoration_set (map diagnosticRange [diag_at 1 2 4; diag_at 2 10 15; diag_at 3 20 20]))
    None (Some (mkSelected 10 15 (diag_at 2 10 15))).

(** Inserting three characters at position 0. *)
Definition insert3_at0 : Transaction := mkTransaction None None [mkChange 0 0 3].

End LintSpec.

(** ** Notions the properties of the scheduler are stated with *)
Module SchedulerSpec.

Local Open Scope Z_scope.

(** A burst after an event at [last]: every edit changes the document and
    follows the event before it by less than the delay less 10. *)
Fixpoint burst (last : Z) (edits : list (Z * ChangeSet)) : Prop :=
  match edits with
  | [] => True
  | (t, ch) :: rest => last <= t < last + (LintDelay - 10) /\ ch <> [] /\ burst t rest
  end.

(** The time of the last edit of a burst ([last] if there is none). *)
Fixpoint final_time (last : Z) (edits : list (Z * ChangeSet)) : Z :=
  match edits with
  | [] => last
  | (t, _) :: rest => final_time t rest
  end.

(** Waiting: the deadline is [last + LintDelay], one timer is pending,
    due at [due], and the source has not been called. *)
Definition armed (w : World) (last due : Z) : Prop :=
  plugin w = mkRunLintPlugin (last + LintDelay) true /\
  timers w = [due] /\ invoked w = [] /\ last <= due <= last + LintDelay.

(** Done: the source was called once, at a time [T] within 10 before the
    deadline [last + LintDelay], and no timer is pending. *)
Definition settled (w : World) (last : Z) : Prop :=
  exists T, invoked w = [T] /\
            last + LintDelay - 10 <= T <= last + LintDelay /\
            timers w = [] /\
            plugin w = mkRunLintPlugin (last + LintDelay) false.

(** [set] says whether a timer is pending, and there is never more than
    one. *)
Definition timer_slot (w : World) : Prop :=
  if set (plugin w) then exists due, timers w = [due] else timers w = [].

(** Waiting after earlier invocations: the deadline is [last + LintDelay],
    one timer is pending, due at [due] no later than the deadline, and the
    source has been called at the times [inv] so far. *)
Definition waiting (inv : list Z) (w : World) (last due : Z) : Prop :=
  plugin w = mkRunLintPlugin (last + LintDelay) true /\
  timers w = [due] /\ invoked w = inv /\ due <= last + LintDelay.

(** Done after earlier invocations: the source was called once more, at a
    time [T] within 10 before the deadline [last + LintDelay], and no timer
    is pending. *)
Definition settled_after (inv : list Z) (w : World) (last : Z) : Prop :=
  exists T, invoked w = inv ++ [T] /\
            last + LintDelay - 10 <= T <= last + LintDelay /\
            timers w = [] /\
            plugin w = mkRunLintPlugin (last + LintDelay) false.

(** The pending timers are due no later than the deadline, which is no
    later than the delay from now. *)
Definition due_by_deadline (w : World) : Prop :=
  Forall (fun due => due <= lintTime (plugin w)) (timers w) /\
  lintTime (plugin w) <= clock w + LintDelay.

End SchedulerSpec.


(** ** What the view shows: panel provision, active range, tooltips and
       diagnostic actions (lint.ts 99-144, 208-224) *)
Module ViewParts.

(** lint.ts 99: the panels the field provides. *)
Definition provided_panels (s : LintState) : list PanelConstructor :=
  match panel s with
  | Some p => [p]
  | None => []
  end.

(** lint.ts 107-112: the decoration set that highlights the selected
    diagnostic; its marks carry only a class. *)
Definition activeDecorations (s : LintState) : RangeSet ClassName :=
  match selected s, panel s with
  | Some sel, Some _ =>
      if sel_from sel =? sel_to sel then []
      else RangeSet_of [mkRange (sel_from sel) (sel_to sel)
                          (themeClass "lintRange.active")]
  | _, _ => []
  end.

(** What [lintTooltip] returns when it finds something: the range the
    stacked diagnostics span and the diagnostics its tooltip renders, in
    order; the tooltip sits at [tip_start]. *)
Record Tooltip := mkTooltip {
  tip_start : N;
  tip_end : N;
  tip_found : list Diagnostic
}.

(** The three variables the callback of lint.ts 122-128 writes. *)
Record Stack := mkStack {
  found : list Diagnostic;
  stackStart : N;
  stackEnd : N
}.

(** lint.ts 119-144.  The outer [None] is the exception of
    [state.field(lintState)] on a state without the field; the inner one is
    the [null] returned when nothing is found. *)
Definition lintTooltip (view : EditorView) (check : N -> N -> bool)
  : option (option Tooltip) :=
  match field_lintState (state view) with
  | None => None
  | Some field =>
      let st :=
        between (diagnostics field) 0 (doc_length (state view))
          (fun start end_ deco st =>
             if check start end_
             then (mkStack (found st ++ [spec_diagnostic deco])
                     (N.min start (stackStart st))
                     (N.max end_ (stackEnd st)), true)
             else (st, true))
          (mkStack [] 200000000 0) in
      Some (match found st with
            | [] => None
            | _ :: _ => Some (mkTooltip (stackStart st) (stackEnd st) (found st))
            end)
  end.

(** lint.ts 216-220: a click on an action button of [diagnostic].  Gives
    the positions [action.apply] is called with, if it is called; the outer
    [None] is the exception on a state without the field. *)
Definition action_onclick (view : EditorView) (diagnostic : Diagnostic)
  : option (option (N * N)) :=
  match field_lintState (state view) with
  | None => None
  | Some field =>
      Some (match findDiagnostic (diagnostics field) (Some diagnostic) 0 with
            | Some found => Some (sel_from found, sel_to found)
            | None => None
            end)
  end.

End ViewParts.

(** ** The panel's keyboard handling and DOM synchronisation
       (lint.ts 255-276, 292-297, 341-362) *)
Module PanelDom.

Local Open Scope Z_scope.

(** The loop of lint.ts 295: the index of the first item showing [d],
    counted from [i], or -1. *)
Fixpoint index_from (its : list PanelItem) (d : Diagnostic) (i : Z) : Z :=
  match its with
  | [] => -1
  | it :: its' =>
      if Diagnostic_same (item_diagnostic it) d then i
      else index_from its' d (i + 1)
  end.

(** lint.ts 292-297: the getter [selectedIndex]; [None] is the exception on
    a state without the field. *)
Definition selectedIndex (p : LintPanel) (view : EditorView) : option Z :=
  match field_lintState (state view) with
  | None => None
  | Some field =>
      Some (match selected field with
            | None => -1
            | Some sel => index_from (items p) (sel_diagnostic sel) 0
            end)
  end.

(** [moveSelection] called with a number.  On an empty list it returns
    before the index is read; a negative index names no item. *)
Definition moveSelection_at (index : Z) (p : LintPanel) (view : EditorView)
  : option EditorView :=
  match items p with
  | [] => Some view
  | _ :: _ =>
      if index <? 0 then None else moveSelection (Z.to_nat index) p view
  end.

(** lint.ts 255-276: the [keydown] listener of the list, for a key code.
    [%] is the remainder that takes the sign of the dividend; with no items
    the remainder by 0 is never read.  [None] is an exception. *)
Definition keydown (keyCode : Z) (p : LintPanel) (view : EditorView)
  : option EditorView :=
  let len := Z.of_nat (length (items p)) in
  if keyCode =? 27 then
    let view1 := (closeLintPanel view).2 in
    Some (mkEditorView (state view1) (dispatched view1) FocusEditor (next_ref view1))
  else if keyCode =? 38 then
    match selectedIndex p view with
    | None => None
    | Some i => moveSelection_at (Z.rem (i - 1 + len) len) p view
    end
  else if keyCode =? 40 then
    match selectedIndex p view with
    | None => None
    | Some i => moveSelection_at (Z.rem (i + 1) len) p view
    end
  else if keyCode =? 36 then moveSelection_at 0 p view
  else if keyCode =? 35 then moveSelection_at (len - 1) p view
  else if keyCode =? 13 then
    Some (mkEditorView (state view) (dispatched view) FocusEditor (next_ref view))
  else Some view.

(** The DOM node of an item is created with the item; its address stands
    for it. *)
Definition item_dom (it : PanelItem) : Ref := item_ref it.

(** [while (domPos != dom) rm()] followed by [domPos = dom.nextSibling], on
    the siblings from [domPos] on: the siblings after [dom].  [None]: [rm]
    ran into the end of the list, an exception. *)
Fixpoint remove_until (dom : Ref) (rest : list Ref) : option (list Ref) :=
  match rest with
  | [] => None
  | n :: rest' => if Nat.eqb n dom then Some rest' else remove_until dom rest'
  end.

(** lint.ts 349-356: the loop over the items.  The children of the list
    are [before ++ rest], [domPos] is the head of [rest]. *)
Fixpoint sync_items (its : list PanelItem) (before rest : list Ref)
  : option (list Ref * list Ref) :=
  match its with
  | [] => Some (before, rest)
  | it :: its' =>
      if bool_decide (item_dom it ∈ before ++ rest) then
        match remove_until (item_dom it) rest with
        | Some rest' => sync_items its' (before ++ [item_dom it]) rest'
        | None => None
        end
      else sync_items its' (before ++ [item_dom it]) rest
  end.

(** lint.ts 341-362: [sync()], on the children of the list element.  The
    nodes still after [domPos] are removed; an empty list gets a new "No
    diagnostics" node. *)
Definition sync (its : list PanelItem) (children : list Ref)
  : Alloc (option (list Ref)) :=
  fun next =>
    match sync_items its [] children with
    | None => (None, next)
    | Some (before, _) =>
        match before with
        | [] => (Some [next], S next)
        | _ :: _ => (Some before, next)
        end
    end.

End PanelDom.

(** ** Further notions for the state field *)
Module LintMoreSpec.

(** The diagnostic of [r] has no other anchor in [s]. *)
Definition sole_anchor (r : Range Decoration) (s : DecorationSet) : Prop :=
  r ∈ s /\
  forall r', r' ∈ s -> LintSpec.shows (spec_diagnostic (value r)) r' = true -> r' = r.

(** Point anchors are points. *)
Definition widgets_are_points (s : DecorationSet) : Prop :=
  Forall (fun r => LintSpec.anchor_kind r = LintSpec.Point -> rfrom r = rto r) s.

(** The anchors [lintTooltip] stacks: those inside the document that pass
    the check. *)
Definition passing (doc_length : N) (check : N -> N -> bool) (s : DecorationSet)
  : list (Range Decoration) :=
  List.filter (fun r => overlaps 0 doc_length r && check (rfrom r) (rto r)) s.

End LintMoreSpec.

(** ** Notions the properties of the panel are stated with *)
Module PanelSpec.

(** The selection names the diagnostic an item shows. *)
Definition sel_matches (selected : option SelectedDiagnostic) (it : PanelItem) : bool :=
  match selected with
  | Some s => Diagnostic_same (item_diagnostic it) (sel_diagnostic s)
  | None => false
  end.

(** An item with its [aria-selected] attribute in line with the
    selection. *)
Definition restyled (selected : option SelectedDiagnostic) (it : PanelItem)
  : PanelItem :=
  mkPanelItem (item_ref it) (item_diagnostic it) (sel_matches selected it).

(** An item shows the diagnostic of a decoration. *)
Definition item_shows (it : PanelItem) (d : Diagnostic) : Prop :=
  Diagnostic_same (item_diagnostic it) d = true.

(** The items of a panel are distinct objects allocated before [next]. *)
Definition items_allocated (its : list PanelItem) (next : Ref) : Prop :=
  NoDup (map item_ref its) /\ Forall (fun it => (item_ref it < next)%nat) its.

(** The walk of [update] over the visited decorations. *)
Definition walk (selected : option SelectedDiagnostic)
    (decos : list (Range Decoration)) (w : Walk) : Walk :=
  fold_left (fun w r => visit selected (value r) w) decos w.

End PanelSpec.

(** ** Runs of events for the scheduler *)
Module SchedulerTrace.

Local Open Scope Z_scope.

Section WithSource.

Variable source : EditorView -> list Diagnostic.

(** The events of a list, delivered one after the other. *)
Definition deliver (es : list Event) (w : World) : World :=
  fold_left (fun w e => handle source e w) es w.

(** Every event of the list can be delivered when its turn comes. *)
Fixpoint deliverable_run (es : list Event) (w : World) : Prop :=
  match es with
  | [] => True
  | e :: es' => deliverable e w /\ deliverable_run es' (handle source e w)
  end.

End WithSource.

(** The clock readings of the edits of a run. *)
Definition edit_times (es : list Event) : list Z :=
  omap (fun e => match e with Edit t _ => Some t | TimerFires _ _ => None end) es.

(** Every edit so far and the start lie at least the delay before the
    deadline, and not after the clock. *)
Definition deadline_after (start : Z) (past : list Z) (w : World) : Prop :=
  start <= clock w /\ start + LintDelay <= lintTime (plugin w) /\
  Forall (fun e => e <= clock w /\ e + LintDelay <= lintTime (plugin w)) past.

End SchedulerTrace.


(** ** Diagnostics with offsets as the source delivers them
       (lint.ts 8-26, 71-81)

    [from] and [to] of a diagnostic are JavaScript numbers, and nothing
    checks them before the anchor set is built.  This module repeats the
    construction step of [lintState.update] with offsets that are integers
    of either sign, so that a diagnostic with a negative offset can be
    written down.  On offsets that are document positions it agrees with
    [Lint.diagnosticRange] and [Lint.Decoration_set]. *)
Module LintNumbers.

Local Open Scope Z_scope.

(** lint.ts 8-26, [from] and [to] being any integers. *)
Record Diagnostic := mkDiagnostic {
  ref : Ref;
  from : Z;
  to : Z;
  severity : Severity;
  source : option string;
  message : string;
  actions : option (list Action)
}.
Arguments mkDiagnostic ref%_nat from to severity source message actions.

Record DiagnosticWidget := mkDiagnosticWidget { widget_value : Diagnostic }.

(** lint.ts 73-80: the two decoration specs, each with its [diagnostic]
    property. *)
Inductive Decoration :=
| MarkDecoration (attributes_class : ClassName) (diagnostic : Diagnostic)
| WidgetDecoration (widget : DiagnosticWidget) (diagnostic : Diagnostic).

Definition spec_diagnostic (d : Decoration) : Diagnostic :=
  match d with
  | MarkDecoration _ diagnostic => diagnostic
  | WidgetDecoration _ diagnostic => diagnostic
  end.

(** Modelled from the spec: an entry (from, to, payload) of a
    RangeAnchorSet, with the ends as they are handed in. *)
Record Range := mkRange { rfrom : Z; rto : Z; value : Decoration }.

(** Modelled from the spec: the order of the collection (ascending [from],
    ties broken by ascending [to]). *)
Definition Range_leb (a b : Range) : bool :=
  (rfrom a <? rfrom b) || ((rfrom a =? rfrom b) && (rto a <=? rto b)).

(** Modelled from the spec: insertion that keeps the order. *)
Fixpoint RangeSet_insert (x : Range) (s : list Range) : list Range :=
  match s with
  | [] => [x]
  | y :: s' => if Range_leb x y then x :: y :: s' else y :: RangeSet_insert x s'
  end.

(** Modelled from the spec: [Decoration.set(ranges)]. *)
Definition Decoration_set (ranges : list Range) : list Range :=
  foldr RangeSet_insert [] ranges.

(** lint.ts 72-80: the callback of [setDiag.map]. *)
Definition diagnosticRange (d : Diagnostic) : Range :=
  if from d <? to d
  then mkRange (from d) (to d)
         (MarkDecoration (themeClass ("lintRange." +:+ Severity_name (severity d))) d)
  else mkRange (from d) (from d) (WidgetDecoration (mkDiagnosticWidget d) d).

(** lint.ts 71-81: the constant [ranges]. *)
Definition ranges (setDiag : list Diagnostic) : list Range :=
  Decoration_set (map diagnosticRange setDiag).

(** A diagnostic, a decoration and an anchor whose offsets are document
    positions, read with integer offsets. *)
Definition of_Diagnostic (d : Lint.Diagnostic) : Diagnostic :=
  mkDiagnostic (Lint.ref d) (Z.of_N (Lint.from d)) (Z.of_N (Lint.to d))
    (Lint.severity d) (Lint.source d) (Lint.message d) (Lint.actions d).

Definition of_Decoration (deco : Lint.Decoration) : Decoration :=
  match deco with
  | Lint.MarkDecoration class d => MarkDecoration class (of_Diagnostic d)
  | Lint.WidgetDecoration w d =>
      WidgetDecoration (mkDiagnosticWidget (of_Diagnostic (Lint.widget_value w)))
        (of_Diagnostic d)
  end.

Definition of_Range (r : Substrate.Range Lint.Decoration) : Range :=
  mkRange (Z.of_N (Substrate.rfrom r)) (Z.of_N (Substrate.rto r))
    (of_Decoration (Substrate.value r)).

(** A diagnostic that starts before the document. *)
Definition diag_negative : Diagnostic :=
  mkDiagnostic 1 (-1) 3 warning None "redeclared x" None.

(** A diagnostic that ends before it starts, beyond a 20-character
    document. *)
Definition diag_reversed : Diagnostic :=
  mkDiagnostic 2 30 4 error None "unexpected token" None.

End LintNumbers.

(** ** Facts about the substrate model *)
Module SubstrateFacts.

Section Ordering.
Context {V : Type}.




Lemma RangeSet_insert_perm (x : Range V) s : RangeSet_insert x s ≡ₚ x :: s.
Proof.
  induction s as [|y s IH]; simpl; [done|].
  destruct (Range_leb x y); [done|].
  rewrite IH. apply Permutation_swap.
Qed.

Lemma RangeSet_of_perm (l : list (Range V)) : RangeSet_of l ≡ₚ l.
Proof.
  induction l as [|x l IH]; simpl; [done|].
  rewrite RangeSet_insert_perm. by rewrite IH.
Qed.



(** Every anchor of a set ends within the set's extent. *)
Lemma RangeSet_length_ge (s : RangeSet V) r :
  r ∈ s -> rto r <= RangeSet_length s.
Proof.
  induction 1 as [r s|r y s _ IH]; simpl; lia.
Qed.

(** A visitor that stops at the first entry it accepts finds the first
    accepted entry among those overlapping the queried range. *)
Lemma between_first {A} (accept : V -> bool) (mk : N -> N -> V -> A)
    (cb : N -> N -> V -> option A -> option A * bool)
    (s : RangeSet V) (from to : N) :
  (forall f t v found,
      cb f t v found
      = if accept v then (Some (mk f t v), false) else (found, true)) ->
  between s from to cb None
  = (fun r => mk (rfrom r) (rto r) (value r))
      <$> find (fun r => overlaps from to r && accept (value r)) s.
Proof.
  intros Hcb.
  induction s as [|r s IH]; simpl; [done|].
  unfold overlaps at 1.
  destruct ((rfrom r <=? to) && (from <=? rto r)); simpl; [|exact IH].
  rewrite Hcb. destruct (accept (value r)); simpl; [done|exact IH].
Qed.

Lemma find_ext_in {A} (p q : A -> bool) (l : list A) :
  (forall x, x ∈ l -> p x = q x) -> find p l = find q l.
Proof.
  induction l as [|x l IH]; simpl; intros H; [done|].
  rewrite <- (H x) by left.
  destruct (p x); [done|]. apply IH. intros y Hy. apply H. by right.
Qed.


Lemma find_some_elem {A} (p : A -> bool) (l : list A) x :
  find p l = Some x -> x ∈ l /\ p x = true.
Proof.
  intros H. apply find_some in H as [H1 H2]. split; [|done].
  by apply list_elem_of_In.
Qed.

End Ordering.

(** Position mapping is monotone, so mapped anchors stay well-formed. *)
Lemma Change_mapPos_mono c p q bias :
  p <= q -> Change_mapPos c p bias <= Change_mapPos c q bias.
Proof.
  intros Hpq. unfold Change_mapPos.
  repeat match goal with
         | |- context [N.ltb ?a ?b] => destruct (N.ltb_spec a b)
         | |- context [N.eqb ?a ?b] => destruct (N.eqb_spec a b)
         | |- context [Z.leb ?a ?b] => destruct (Z.leb_spec a b)
         | _ => progress simpl
         end; lia.
Qed.

Lemma mapPos_mono changes p q bias :
  p <= q -> mapPos changes p bias <= mapPos changes q bias.
Proof.
  unfold mapPos. revert p q.
  induction changes as [|c cs IH]; simpl; intros p q Hpq; [done|].
  apply IH. by apply Change_mapPos_mono.
Qed.


End SubstrateFacts.

Import SubstrateFacts.

Import LintSpec.

(** ** The state field *)
Module LintFacts.

(** *** [findDiagnostic] *)

Lemma findDiagnostic_find s diagnostic after :
  findDiagnostic s diagnostic after
  = selectedOf <$>
      find (fun r => overlaps after (RangeSet_length s) r && accepts diagnostic r) s.
Proof.
  unfold findDiagnostic.
  rewrite (between_first
             (fun v => match diagnostic with
                       | Some d => Diagnostic_same (spec_diagnostic v) d
                       | None => true
                       end)
             (fun f t v => mkSelected f t (spec_diagnostic v))).
  - done.
  - intros f t v found. destruct diagnostic as [d|]; [|done].
    by destruct (Diagnostic_same (spec_diagnostic v) d).
Qed.

(** On a set whose anchors are well-formed the upper bound of the query
    never excludes an anchor. *)
Lemma findDiagnostic_ok s diagnostic after :
  anchors_ok s ->
  findDiagnostic s diagnostic after
  = selectedOf <$> find (fun r => at_or_after after r && accepts diagnostic r) s.
Proof.
  intros Hok. rewrite findDiagnostic_find. f_equal.
  apply find_ext_in. intros r Hr. f_equal.
  unfold overlaps, at_or_after.
  pose proof (RangeSet_length_ge s r Hr) as Hlen.
  unfold anchors_ok in Hok. rewrite Forall_forall in Hok.
  specialize (Hok r Hr). simpl in Hok.
  replace (rfrom r <=? RangeSet_length s) with true; [done|].
  symmetry. apply N.leb_le. lia.
Qed.

Lemma findDiagnostic_resolves s diagnostic after sel :
  findDiagnostic s diagnostic after = Some sel -> resolves sel s.
Proof.
  rewrite findDiagnostic_find.
  destruct (find _ s) as [r|] eqn:E; simpl; [|done].
  intros [= <-]. apply find_some_elem in E as [Hr _]. by exists r.
Qed.

(** *** Building and mapping anchor sets *)

Lemma diagnosticRange_ok d : rfrom (diagnosticRange d) <= rto (diagnosticRange d).
Proof.
  unfold diagnosticRange. destruct (N.ltb_spec (from d) (to d)); simpl; lia.
Qed.

Lemma diagnosticRange_diagnostic d :
  spec_diagnostic (value (diagnosticRange d)) = d.
Proof. unfold diagnosticRange. by destruct (from d <? to d). Qed.

Lemma Decoration_set_perm ranges : Decoration_set ranges ≡ₚ ranges.
Proof. apply RangeSet_of_perm. Qed.

Lemma anchors_ok_built D : anchors_ok (Decoration_set (map diagnosticRange D)).
Proof.
  unfold anchors_ok. rewrite Decoration_set_perm.
  apply Forall_forall. intros r Hr.
  apply list_elem_of_fmap in Hr as [d [-> _]]. apply diagnosticRange_ok.
Qed.

Lemma anchors_ok_map ch s : anchors_ok s -> anchors_ok (RangeSet_map ch s).
Proof.
  unfold anchors_ok, RangeSet_map. intros Hok.
  rewrite RangeSet_of_perm. apply Forall_forall. intros r Hr.
  apply list_elem_of_fmap in Hr as [r0 [-> Hr0]]. simpl.
  apply mapPos_mono. rewrite Forall_forall in Hok. by apply Hok.
Qed.

(** *** The three branches of [update] *)

Lemma update_setDiagnostics value D st ch next :
  Lint.update value (mkTransaction (Some D) st ch) next
  = (mkLintState next (Decoration_set (map diagnosticRange D)) (panel value)
       (findDiagnostic (Decoration_set (map diagnosticRange D)) None 0),
     S next).
Proof. reflexivity. Qed.

Lemma update_setState value newState ch next :
  Lint.update value (mkTransaction None (Some newState) ch) next = (newState, next).
Proof. reflexivity. Qed.

Lemma update_docChanged value c ch next :
  Lint.update value (mkTransaction None None (c :: ch)) next
  = (mkLintState next (RangeSet_map (c :: ch) (diagnostics value)) (panel value)
       (match selected value with
        | Some sel =>
            let selPos := mapPos (c :: ch) (sel_from sel) 1 in
            match findDiagnostic (RangeSet_map (c :: ch) (diagnostics value))
                    (Some (sel_diagnostic sel)) selPos with
            | Some found => Some found
            | None =>
                findDiagnostic (RangeSet_map (c :: ch) (diagnostics value)) None selPos
            end
        | None => None
        end),
     S next).
Proof. reflexivity. Qed.


(** C2.  A plain document edit applied to a state with a selection
    (anchors well-formed): the selection's [from] is mapped with bias 1
    to [selPos]; the new selection is the first anchor of the remapped set
    that reaches [selPos] or lies after it and shows the selected
    diagnostic, else the first anchor at or after [selPos] whatever it
    shows, else absent.  Inserting three characters at position 0 turns a
    selection at [10, 15) into one at [13, 18) for the same diagnostic. *)
Theorem edit_reselects :
  (forall value tr next sel,
      annotation_setDiagnostics tr = None ->
      annotation_setState tr = None ->
      docChanged tr = true ->
      selected value = Some sel ->
      anchors_ok (diagnostics value) ->
      let res := (Lint.update value tr next).1 in
      let selPos := mapPos (changes tr) (sel_from sel) 1 in
      diagnostics res = RangeSet_map (changes tr) (diagnostics value) /\
      selected res
      = selectedOf <$>
          match find (fun r => at_or_after selPos r && shows (sel_diagnostic sel) r)
                  (diagnostics res) with
          | Some r => Some r
          | None => find (at_or_after selPos) (diagnostics res)
          end) /\
  (forall next,
      selected (Lint.update sticky_before insert3_at0 next).1
      = Some (mkSelected 13 18 (diag_at 2 10 15))).
Proof.
  split; [|reflexivity].
  intros value [sd ss ch] next sel. simpl. intros -> -> Hch Hsel Hok.
  destruct ch as [|c ch]; [discriminate|].
  rewrite update_docChanged. simpl. split; [done|].
  rewrite Hsel. simpl.
  set (mapped := RangeSet_map (c :: ch) (diagnostics value)).
  assert (anchors_ok mapped) as Hmapped by by apply anchors_ok_map.
  rewrite !findDiagnostic_ok by done. simpl.
  destruct (find _ mapped) as [r|]; simpl; [done|].
  f_equal. apply find_ext_in. intros r _. apply andb_true_r.
Qed.

Lemma edit_reselects_witness :
  selected (Lint.update sticky_before insert3_at0 0%nat).1
  = selectedOf <$>
      match find (fun r => at_or_after 13 r && shows (diag_at 2 10 15) r)
              (diagnostics (Lint.update sticky_before insert3_at0 0%nat).1) with
      | Some r => Some r
      | None => find (at_or_after 13)
                  (diagnostics (Lint.update sticky_before insert3_at0 0%nat).1)
      end.
Proof.
  refine (proj2 (proj1 edit_reselects sticky_before insert3_at0 0%nat
                   (mkSelected 10 15 (diag_at 2 10 15)) _ _ _ _ _)).
  - reflexivity.
  - reflexivity.
  - reflexivity.
  - reflexivity.
  - apply anchors_ok_built.
Defined.

(** *** The selection invariant *)

Lemma setState_payload_live value newState :
  selected_live value -> setState_payload value newState -> selected_live newState.
Proof.
  intros Hlive [next Hp|next Hp|d selection next Hmove]; simpl; try exact Hlive.
  unfold selected_live. simpl. by eapply findDiagnostic_resolves.
Qed.

Lemma update_preserves_live value tr next :
  selected_live value -> admissible value tr ->
  selected_live (Lint.update value tr next).1.
Proof.
  destruct tr as [[D|] [newState|] ch]; unfold admissible; simpl; intros Hlive Hadm.
  - unfold selected_live; simpl.
    destruct (findDiagnostic _ None 0) eqn:E; [|done].
    by eapply findDiagnostic_resolves.
  - unfold selected_live; simpl.
    destruct (findDiagnostic _ None 0) eqn:E; [|done].
    by eapply findDiagnostic_resolves.
  - by eapply setState_payload_live.
  - destruct ch as [|c ch]; [exact Hlive|].
    rewrite update_docChanged. unfold selected_live. simpl.
    destruct (selected value) as [sel|]; [|done]. simpl.
    destruct (findDiagnostic _ (Some _) _) as [found|] eqn:E1.
    + by eapply findDiagnostic_resolves.
    + destruct (findDiagnostic _ None _) as [found|] eqn:E2; [|done].
      by eapply findDiagnostic_resolves.
Qed.

Lemma reachable_live value : reachable value -> selected_live value.
Proof.
  induction 1 as [next|value tr next _ IH Hadm]; [exact I|].
  by apply update_preserves_live.
Qed.

(** Reachable states have well-formed anchors. *)
Lemma reachable_anchors_ok value : reachable value -> anchors_ok (diagnostics value).
Proof.
  induction 1 as [next|value tr next _ IH Hadm]; [constructor|].
  destruct tr as [[D|] [newState|] ch]; unfold admissible in Hadm; simpl in *.
  - apply anchors_ok_built.
  - apply anchors_ok_built.
  - by destruct Hadm.
  - destruct ch as [|c ch]; [exact IH|].
    rewrite update_docChanged. simpl. by apply anchors_ok_map.
Qed.

(** C4.  Every transition of the reducer, from a reachable state and for
    a transaction that can reach it, yields a state whose selection, when
    present, names a live entry of that state's anchor set: an anchor with
    the same [from], [to] and diagnostic. *)
Theorem selection_stays_live value tr next :
  reachable value -> admissible value tr ->
  selected_live (Lint.update value tr next).1.
Proof.
  intros Hreach Hadm. apply update_preserves_live; [|done].
  by apply reachable_live.
Qed.

Lemma selection_stays_live_witness :
  selected_live
    (Lint.update (Lint.update (create 0%nat).1
                    (mkTransaction (Some [diag_at 2 10 15; diag_at 1 2 4]) None []) 1%nat).1
       insert3_at0 2%nat).1.
Proof.
  apply selection_stays_live.
  - apply reachable_update; [apply reachable_create|exact I].
  - exact I.
Defined.

(** C5.  In the set a [setDiagnostics] transaction builds, a diagnostic
    with [from < to] has a span (mark) anchor over [from, to], one with
    [from = to] a point (widget) anchor at [from]; the anchor's spec refers
    to the diagnostic it was built from. *)
Theorem anchor_construction value D st ch next d :
  d ∈ D ->
  let res := (Lint.update value (mkTransaction (Some D) st ch) next).1 in
  diagnosticRange d ∈ diagnostics res /\
  spec_diagnostic (Substrate.value (diagnosticRange d)) = d /\
  (from d < to d ->
   diagnosticRange d
   = mkRange (from d) (to d)
       (MarkDecoration (themeClass ("lintRange." +:+ Severity_name (severity d))) d) /\
   anchor_kind (diagnosticRange d) = Span) /\
  (from d = to d ->
   diagnosticRange d
   = mkRange (from d) (from d) (WidgetDecoration (mkDiagnosticWidget d) d) /\
   anchor_kind (diagnosticRange d) = Point).
Proof.
  intros Hd. rewrite update_setDiagnostics. simpl. split_and!.
  - rewrite Decoration_set_perm. by apply list_elem_of_fmap_2.
  - apply diagnosticRange_diagnostic.
  - intros Hlt. unfold diagnosticRange, anchor_kind.
    apply N.ltb_lt in Hlt. by rewrite Hlt.
  - intros Heq. unfold diagnosticRange, anchor_kind.
    rewrite Heq, N.ltb_irrefl. done.
Qed.

Lemma anchor_construction_witness :
  diagnosticRange (diag_at 2 10 15)
  = mkRange 10 15 (MarkDecoration (themeClass "lintRange.warning") (diag_at 2 10 15)) /\
  diagnosticRange (diag_at 3 20 20)
  = mkRange 20 20 (WidgetDecoration (mkDiagnosticWidget (diag_at 3 20 20)) (diag_at 3 20 20)).
Proof.
  split.
  - refine (proj1 (proj1 (proj2 (proj2
      (anchor_construction (create 0%nat).1
         [diag_at 2 10 15; diag_at 3 20 20] None [] 1%nat (diag_at 2 10 15) _))) _)).
    + left.
    + reflexivity.
  - refine (proj1 (proj2 (proj2 (proj2
      (anchor_construction (create 0%nat).1
         [diag_at 2 10 15; diag_at 3 20 20] None [] 1%nat (diag_at 3 20 20) _))) _)).
    + right. left.
    + reflexivity.
Defined.

(** C7 as stated fails: in a view of a 20-character document a diagnostic
    over [3, 30] is installed as it is, so an anchor that reaches beyond the
    document is produced. *)
Lemma malformed_not_clamped :
  let view' := dispatch (annotate_setDiagnostics state_t [diag_at 1 3 30])
                 Examples.attached_view in
  doc_length (state view') = 20 /\
  exists field,
    field_lintState (state view') = Some field /\
    diagnosticRange (diag_at 1 3 30) ∈ diagnostics field /\
    ~ Forall (in_document (doc_length (state view'))) (diagnostics field).
Proof.
  simpl. split; [reflexivity|]. eexists. split; [reflexivity|]. split.
  - left.
  - intros H. apply Forall_inv in H as [_ H]. simpl in H. lia.
Qed.

(** *** The construction step on integer offsets *)

Lemma Numbers_insert_perm x s : LintNumbers.RangeSet_insert x s ≡ₚ x :: s.
Proof.
  induction s as [|y s IH]; simpl; [done|].
  destruct (LintNumbers.Range_leb x y); [done|].
  rewrite IH. apply Permutation_swap.
Qed.

Lemma Numbers_set_perm ranges : LintNumbers.Decoration_set ranges ≡ₚ ranges.
Proof.
  induction ranges as [|x ranges IH]; simpl; [done|].
  rewrite Numbers_insert_perm. by rewrite IH.
Qed.

Lemma Numbers_Range_leb_agrees a b :
  LintNumbers.Range_leb (LintNumbers.of_Range a) (LintNumbers.of_Range b)
  = Range_leb a b.
Proof.
  unfold LintNumbers.Range_leb, Range_leb, LintNumbers.of_Range. simpl.
  destruct (N.ltb_spec (rfrom a) (rfrom b)), (N.eqb_spec (rfrom a) (rfrom b)),
    (N.leb_spec (rto a) (rto b)),
    (Z.ltb_spec (Z.of_N (rfrom a)) (Z.of_N (rfrom b))),
    (Z.eqb_spec (Z.of_N (rfrom a)) (Z.of_N (rfrom b))),
    (Z.leb_spec (Z.of_N (rto a)) (Z.of_N (rto b))); simpl; try done; lia.
Qed.

Lemma Numbers_insert_agrees x s :
  LintNumbers.RangeSet_insert (LintNumbers.of_Range x) (map LintNumbers.of_Range s)
  = map LintNumbers.of_Range (RangeSet_insert x s).
Proof.
  induction s as [|y s IH]; simpl; [done|].
  rewrite Numbers_Range_leb_agrees. destruct (Range_leb x y); simpl; [done|].
  by rewrite IH.
Qed.

Lemma Numbers_set_agrees ranges :
  LintNumbers.Decoration_set (map LintNumbers.of_Range ranges)
  = map LintNumbers.of_Range (Decoration_set ranges).
Proof.
  induction ranges as [|x ranges IH]; simpl; [done|].
  rewrite IH. apply Numbers_insert_agrees.
Qed.

Lemma Numbers_diagnosticRange_agrees d :
  LintNumbers.diagnosticRange (LintNumbers.of_Diagnostic d)
  = LintNumbers.of_Range (diagnosticRange d).
Proof.
  unfold LintNumbers.diagnosticRange, diagnosticRange, LintNumbers.of_Range. simpl.
  destruct (N.ltb_spec (from d) (to d)), (Z.ltb_spec (Z.of_N (from d)) (Z.of_N (to d)));
    simpl; try done; lia.
Qed.

Lemma Numbers_ranges_agree D :
  LintNumbers.ranges (map LintNumbers.of_Diagnostic D)
  = map LintNumbers.of_Range (Decoration_set (map diagnosticRange D)).
Proof.
  unfold LintNumbers.ranges. rewrite <- Numbers_set_agrees. f_equal.
  rewrite <- !list_fmap_compose. apply list_fmap_ext.
  intros i d _. apply Numbers_diagnosticRange_agrees.
Qed.

(** C7, amended.  [update] never fails on a batch and drops nothing: the
    new set holds one anchor per diagnostic.  The offsets are not clamped
    to the document: an anchor starts at the diagnostic's [from]; it ends
    at [to] when [from < to] and at [from] otherwise, so a diagnostic with
    [from > to] gives a point anchor at [from] and no anchor has
    [from > to].  The same holds of the construction step when the offsets
    are integers of either sign: a negative [from] is the anchor's start
    as it is, and the step is the one [update] performs whenever the
    offsets are document positions. *)
Theorem malformed_installed_unclamped value D st ch next :
  let res := (Lint.update value (mkTransaction (Some D) st ch) next).1 in
  (diagnostics res ≡ₚ map diagnosticRange D /\
   anchors_ok (diagnostics res) /\
   Forall (fun d =>
             rfrom (diagnosticRange d) = from d /\
             rto (diagnosticRange d) = (if from d <? to d then to d else from d) /\
             spec_diagnostic (Substrate.value (diagnosticRange d)) = d) D) /\
  (forall setDiag : list LintNumbers.Diagnostic,
      LintNumbers.ranges setDiag ≡ₚ map LintNumbers.diagnosticRange setDiag /\
      Forall (fun r => (LintNumbers.rfrom r <= LintNumbers.rto r)%Z)
        (LintNumbers.ranges setDiag) /\
      Forall (fun d =>
                LintNumbers.rfrom (LintNumbers.diagnosticRange d) = LintNumbers.from d /\
                LintNumbers.rto (LintNumbers.diagnosticRange d)
                = (if (LintNumbers.from d <? LintNumbers.to d)%Z
                   then LintNumbers.to d else LintNumbers.from d) /\
                LintNumbers.spec_diagnostic
                  (LintNumbers.value (LintNumbers.diagnosticRange d)) = d) setDiag) /\
  LintNumbers.ranges (map LintNumbers.of_Diagnostic D)
  = map LintNumbers.of_Range (diagnostics res) /\
  LintNumbers.ranges [LintNumbers.diag_reversed; LintNumbers.diag_negative]
  = [LintNumbers.mkRange (-1) 3
       (LintNumbers.MarkDecoration (themeClass "lintRange.warning")
          LintNumbers.diag_negative);
     LintNumbers.mkRange 30 30
       (LintNumbers.WidgetDecoration
          (LintNumbers.mkDiagnosticWidget LintNumbers.diag_reversed)
          LintNumbers.diag_reversed)].
Proof.
  rewrite update_setDiagnostics. cbn [fst diagnostics]. split_and!.
  - apply Decoration_set_perm.
  - apply anchors_ok_built.
  - apply Forall_forall. intros d _. unfold diagnosticRange.
    by destruct (from d <? to d).
  - intros setDiag. split_and!.
    + apply Numbers_set_perm.
    + unfold LintNumbers.ranges. rewrite Numbers_set_perm.
      apply Forall_forall. intros r (d & -> & _)%list_elem_of_fmap.
      unfold LintNumbers.diagnosticRange.
      destruct (Z.ltb_spec (LintNumbers.from d) (LintNumbers.to d)); simpl; lia.
    + apply Forall_forall. intros d _. unfold LintNumbers.diagnosticRange.
      by destruct (LintNumbers.from d <? LintNumbers.to d)%Z.
  - apply Numbers_ranges_agree.
  - reflexivity.
Qed.

(** C8.  A transaction with neither annotation that leaves the document
    alone returns the prior state itself: the same object at the same
    address, and nothing is allocated. *)
Theorem untouched_returns_same value tr next :
  annotation_setDiagnostics tr = None ->
  annotation_setState tr = None ->
  docChanged tr = false ->
  Lint.update value tr next = (value, next).
Proof.
  destruct tr as [sd ss ch]. simpl. intros -> -> Hch.
  unfold Lint.update. simpl. by rewrite Hch.
Qed.

Lemma untouched_returns_same_witness :
  Lint.update sticky_before (mkTransaction None None []) 7%nat = (sticky_before, 7%nat).
Proof.
  apply untouched_returns_same; reflexivity.
Defined.

(** In the other branches the result is a new object at the next free
    address. *)
Lemma update_allocates value tr next :
  (is_Some (annotation_setDiagnostics tr) \/
   (annotation_setState tr = None /\ docChanged tr = true)) ->
  ls_ref (Lint.update value tr next).1 = next /\
  (Lint.update value tr next).2 = S next.
Proof.
  destruct tr as [[D|] [st|] ch]; simpl; intros [[? [=]]|[[=] Hch]]; try done.
  unfold Lint.update. simpl. by rewrite Hch.
Qed.

(** C10.  When a transaction carries [setDiagnostics] its changes and any
    [setState] on it play no part: the result is the one for the same
    diagnostics with no change and no [setState]; the new anchors sit at
    the diagnostics' own offsets and the prior anchors are not used. *)
Theorem setDiagnostics_takes_precedence value D st ch next :
  Lint.update value (mkTransaction (Some D) st ch) next
  = Lint.update value (mkTransaction (Some D) None []) next /\
  diagnostics (Lint.update value (mkTransaction (Some D) st ch) next).1
  = Decoration_set (map diagnosticRange D) /\
  Forall (fun d => rfrom (diagnosticRange d) = from d /\
                   rto (diagnosticRange d) = (if from d <? to d then to d else from d)) D.
Proof.
  split_and!; [reflexivity|reflexivity|].
  apply Forall_forall. intros d _. unfold diagnosticRange.
  by destruct (from d <? to d).
Qed.

End LintFacts.

Import Examples.

(** ** The panel commands *)
Module CommandFacts.

Lemma dispatch_keeps_field tr view :
  is_Some (field_lintState (state view)) ->
  is_Some (field_lintState (state (dispatch tr view))).
Proof.
  intros [field Hf]. unfold dispatch, Transaction_apply. rewrite Hf.
  destruct (Lint.update field tr (next_ref view)) as [value' next']. by eexists.
Qed.

Lemma dispatch_setState payload view field :
  field_lintState (state view) = Some field ->
  field_lintState (state (dispatch (annotate_setState state_t payload) view))
  = Some payload.
Proof. intros Hf. unfold dispatch, Transaction_apply. by rewrite Hf. Qed.

(** C9.  Without the lint field both commands return [false] and leave
    the view as it is, so nothing is dispatched; [closeLintPanel] does the
    same when the field is there but the panel is not open; in the other
    cases each returns [true]. *)
Theorem panel_commands_applicability view :
  (field_lintState (state view) = None ->
   openLintPanel view = (Return false, view) /\
   closeLintPanel view = (Return false, view)) /\
  (forall field,
      field_lintState (state view) = Some field ->
      (openLintPanel view).1 = Return true /\
      (panel field = None -> closeLintPanel view = (Return false, view)) /\
      (panel field <> None -> (closeLintPanel view).1 = Return true)).
Proof.
  split.
  - intros Hnone. unfold openLintPanel, closeLintPanel. by rewrite Hnone.
  - intros field Hf. unfold openLintPanel, closeLintPanel. rewrite Hf.
    split_and!.
    + destruct (panel field) eqn:Hp.
      * by rewrite Hf.
      * simpl.
        erewrite dispatch_setState by (simpl; exact Hf). done.
    + by intros ->.
    + intros Hp. by destruct (panel field).
Qed.

Lemma panel_commands_applicability_witness :
  (openLintPanel detached_view = (Return false, detached_view) /\
   closeLintPanel detached_view = (Return false, detached_view)) /\
  (openLintPanel attached_view).1 = Return true /\
  closeLintPanel attached_view = (Return false, attached_view) /\
  (closeLintPanel (openLintPanel attached_view).2).1 = Return true.
Proof.
  split; [|split_and!].
  - apply (proj1 (panel_commands_applicability detached_view)). reflexivity.
  - refine (proj1 (proj2 (panel_commands_applicability attached_view) _ _)).
    reflexivity.
  - refine (proj1 (proj2 (proj2 (panel_commands_applicability attached_view) _ _)) _);
      reflexivity.
  - refine (proj2 (proj2 (proj2 (panel_commands_applicability
                                    (openLintPanel attached_view).2) _ _)) _).
    + reflexivity.
    + discriminate.
Defined.

(** What [openLintPanel] does when the field is there: it dispatches one
    [setState] transaction if the panel was closed and none otherwise;
    afterwards the panel is open and its list has the focus. *)
Lemma openLintPanel_opens view field :
  field_lintState (state view) = Some field ->
  let view' := (openLintPanel view).2 in
  (exists field', field_lintState (state view') = Some field' /\
                  panel field' = Some LintPanel_open /\
                  diagnostics field' = diagnostics field /\
                  selected field' = selected field) /\
  focus view' = FocusLintPanelList /\
  length (dispatched view')
  = (length (dispatched view)
     + match panel field with Some _ => 0 | None => 1 end)%nat.
Proof.
  intros Hf. unfold openLintPanel. rewrite Hf.
  destruct (panel field) as [[]|] eqn:Hp.
  - rewrite Hf, Hp. simpl. split_and!; [|done|lia].
    exists field. by rewrite Hf, Hp.
  - simpl. erewrite dispatch_setState by (simpl; exact Hf). simpl.
    split_and!; [|done|].
    + eexists. split; [by erewrite dispatch_setState by (simpl; exact Hf)|done].
    + unfold dispatch, Transaction_apply. simpl. rewrite Hf. simpl.
      rewrite length_app. simpl. lia.
Qed.

(** *** Where [setState] transactions come from *)

(** Each of the three dispatch sites sends at most one transaction, and the
    state it carries is built from the field the transaction is applied
    to. *)
Lemma openLintPanel_admissible view field :
  field_lintState (state view) = Some field ->
  exists trs,
    dispatched (openLintPanel view).2 = dispatched view ++ trs /\
    Forall (admissible field) trs.
Proof.
  intros Hf. unfold openLintPanel. rewrite Hf.
  destruct (panel field) as [[]|] eqn:Hp.
  - rewrite Hf, Hp. simpl. exists []. by rewrite app_nil_r.
  - simpl. erewrite dispatch_setState by (simpl; exact Hf). simpl.
    eexists [_]. split.
    + unfold dispatch, Transaction_apply. simpl. by rewrite Hf.
    + constructor; [|done]. unfold admissible. simpl.
      by apply (payload_open field (next_ref view)).
Qed.

Lemma closeLintPanel_admissible view field :
  field_lintState (state view) = Some field ->
  exists trs,
    dispatched (closeLintPanel view).2 = dispatched view ++ trs /\
    Forall (admissible field) trs.
Proof.
  intros Hf. unfold closeLintPanel. rewrite Hf.
  destruct (panel field) as [[]|] eqn:Hp.
  - simpl. eexists [_]. split.
    + unfold dispatch, Transaction_apply. simpl. by rewrite Hf.
    + constructor; [|done]. unfold admissible. simpl.
      apply (payload_close field (next_ref view)). by rewrite Hp.
  - simpl. exists []. by rewrite app_nil_r.
Qed.

Lemma moveSelection_admissible selectedIndex p view view' field :
  field_lintState (state view) = Some field ->
  moveSelection selectedIndex p view = Some view' ->
  exists trs,
    dispatched view' = dispatched view ++ trs /\
    Forall (admissible field) trs.
Proof.
  intros Hf. unfold moveSelection. rewrite Hf.
  destruct (items p) as [|it its]; [intros [= <-]; exists []; by rewrite app_nil_r|].
  destruct ((it :: its) !! selectedIndex) as [item|]; [|done].
  destruct (findDiagnostic (diagnostics field) (Some (item_diagnostic item)) 0)
    as [selection|] eqn:E.
  - unfold setSelection_single.
    destruct ((doc_length (state view) <? sel_from selection)
              || (doc_length (state view) <? sel_to selection)); [done|].
    simpl. intros [= <-]. eexists [_]. split.
    + unfold dispatch, Transaction_apply. simpl. by rewrite Hf.
    + constructor; [|done]. unfold admissible. simpl.
      by apply (payload_move field (item_diagnostic item) selection (next_ref view)).
  - intros [= <-]. exists []. by rewrite app_nil_r.
Qed.

End CommandFacts.

Import SchedulerSpec.

(** ** The re-lint scheduler *)
Module SchedulerFacts.

Local Open Scope Z_scope.

Section WithSource.

Variable source : EditorView -> list Diagnostic.

(** The callback, more than ten before the deadline: nothing is invoked
    and a timer is armed for the rest of the interval. *)
Lemma run_early w :
  clock w < lintTime (plugin w) - 10 ->
  run source w = setTimeout (lintTime (plugin w) - clock w) w.
Proof.
  intros H. unfold run. apply Z.ltb_lt in H. by rewrite H.
Qed.

(** The callback from ten before the deadline on: the source is called,
    [set] is cleared and no timer is armed. *)
Lemma run_late w :
  lintTime (plugin w) - 10 <= clock w ->
  invoked (run source w) = invoked w ++ [clock w] /\
  timers (run source w) = timers w /\
  plugin (run source w) = mkRunLintPlugin (lintTime (plugin w)) false.
Proof.
  intros H. unfold run. apply Z.ltb_ge in H. by rewrite H.
Qed.

Lemma constructor_slot now v : timer_slot (constructor now v).
Proof. unfold timer_slot. simpl. by eexists. Qed.

Lemma update_slot b w : timer_slot w -> timer_slot (Scheduler.update b w).
Proof.
  unfold timer_slot, Scheduler.update. destruct b; [|done]. simpl.
  destruct (set (plugin w)); simpl; [done|].
  intros ->. by eexists.
Qed.

Lemma handle_slot e w : timer_slot w -> deliverable e w -> timer_slot (handle source e w).
Proof.
  intros Hslot Hdel. destruct e as [t ch|due t]; simpl in *.
  - apply update_slot. exact Hslot.
  - destruct Hdel as (Hin & _ & _).
    unfold timer_slot in Hslot.
    destruct (set (plugin w)) eqn:Hset.
    + destruct Hslot as [due' Hts]. rewrite Hts in Hin |- *.
      apply list_elem_of_singleton in Hin as ->. simpl. rewrite Z.eqb_refl.
      unfold run. simpl.
      destruct (t <? lintTime (plugin w) - 10).
      * unfold timer_slot. simpl. rewrite Hset. by eexists.
      * apply update_slot. by unfold timer_slot.
    + rewrite Hslot in Hin. by apply elem_of_nil in Hin.
Qed.

Lemma reachable_slot w : Scheduler.reachable source w -> timer_slot w.
Proof.
  induction 1 as [now v|e w _ IH Hdel].
  - apply constructor_slot.
  - by apply handle_slot.
Qed.

(** *** Bursts under exact timers *)

Ltac crunch :=
  cbn -[Z.add Z.sub Z.leb Z.ltb Z.eqb Z.min];
  repeat match goal with
    | |- context [Z.leb ?a ?b] => destruct (Z.leb_spec a b); try lia
    | |- context [Z.ltb ?a ?b] => destruct (Z.ltb_spec a b); try lia
    | |- context [Z.eqb ?a ?a] => rewrite Z.eqb_refl
    end.

Lemma handle_edit_armed w last due t c ch :
  armed w last due -> t <= due -> last <= t ->
  armed (handle source (Edit t (c :: ch)) w) t due.
Proof.
  intros (Hp & Ht & Hi & Hd) Htd Hlt.
  destruct w as [k v p ts inv]. simpl in *. subst.
  unfold armed, LintDelay in *. cbn. split_and!; try done; lia.
Qed.

Lemma handle_timer_early w last due :
  armed w last due -> due < last + LintDelay - 10 ->
  armed (handle source (TimerFires due due) w) last (last + LintDelay).
Proof.
  intros (Hp & Ht & Hi & Hd) Hlt.
  destruct w as [k v p ts inv]. simpl in *. subst.
  unfold armed, LintDelay, run in *. crunch.
  split_and!; try done; try lia. unfold setTimeout. cbn. f_equal. lia.
Qed.

Lemma handle_timer_late w last due :
  armed w last due -> last + LintDelay - 10 <= due ->
  settled (handle source (TimerFires due due) w) last.
Proof.
  intros (Hp & Ht & Hi & Hd) Hlt.
  destruct w as [k v p ts inv]. simpl in *. subst.
  unfold settled, LintDelay, run in *. crunch.
  exists due. split_and!; try done; lia.
Qed.

Lemma simulate_S budget edits w :
  simulate source (S budget) edits w
  = match edits, next_timer (timers w) with
    | [], None => Some w
    | (t, ch) :: edits', None =>
        simulate source budget edits' (handle source (Edit t ch) w)
    | [], Some due =>
        simulate source budget [] (handle source (TimerFires due due) w)
    | (t, ch) :: edits', Some due =>
        if t <=? due
        then simulate source budget edits' (handle source (Edit t ch) w)
        else simulate source budget edits (handle source (TimerFires due due) w)
    end.
Proof. reflexivity. Qed.

Lemma simulate_settled budget w last :
  settled w last -> simulate source (S budget) [] w = Some w.
Proof. intros (T & _ & _ & Ht & _). rewrite simulate_S, Ht. reflexivity. Qed.

(** From a waiting plugin, a burst ends with the source called once,
    within 10 before the last edit plus the delay. *)
Lemma simulate_burst (edits : list (Z * ChangeSet)) : forall budget w last due,
  armed w last due -> burst last edits ->
  (2 * length edits + 3 <= budget)%nat ->
  exists w', simulate source budget edits w = Some w' /\
             settled w' (final_time last edits).
Proof.
  induction edits as [|[t ch] rest IH];
    intros budget w last due Harmed Hburst Hbudget.
  - destruct budget as [|[|[|budget]]]; simpl in Hbudget; try lia.
    pose proof Harmed as (Hp & Ht & Hi & Hd).
    rewrite simulate_S, Ht. cbn [next_timer foldr final_time].
    destruct (Z_lt_le_dec due (last + LintDelay - 10)) as [Hearly|Hlate].
    + pose proof (handle_timer_early w last due Harmed Hearly) as Harmed'.
      pose proof Harmed' as (Hp' & Ht' & Hi' & Hd').
      rewrite simulate_S, Ht'. cbn [next_timer foldr].
      assert (settled (handle source (TimerFires (last + LintDelay) (last + LintDelay))
                         (handle source (TimerFires due due) w)) last) as Hs
          by (apply handle_timer_late; [done|lia]).
      eexists. split; [exact (simulate_settled _ _ _ Hs)|done].
    + pose proof (handle_timer_late w last due Harmed Hlate) as Hs.
      eexists. split; [exact (simulate_settled _ _ _ Hs)|done].
  - destruct Hburst as (Ht & Hch & Hrest). destruct ch as [|c ch]; [done|].
    cbn [length] in Hbudget. unfold LintDelay in Ht.
    destruct budget as [|budget]; [lia|].
    pose proof Harmed as (Hp & Hts & Hi & Hd).
    rewrite simulate_S, Hts. cbn [next_timer foldr final_time].
    destruct (Z.leb_spec t due) as [Hle|Hgt].
    + eapply IH; [apply (handle_edit_armed w last due); [done|lia|lia]|done|lia].
    + assert (armed (handle source (TimerFires due due) w) last (last + LintDelay))
        as Harmed' by (apply handle_timer_early; [done|unfold LintDelay; lia]).
      pose proof Harmed' as (Hp' & Hts' & Hi' & Hd').
      destruct budget as [|budget]; [lia|].
      rewrite simulate_S, Hts'. cbn [next_timer foldr].
      assert ((t <=? last + LintDelay) = true) as ->
          by (apply Z.leb_le; unfold LintDelay; lia).
      eapply IH;
        [eapply handle_edit_armed; [exact Harmed'|unfold LintDelay; lia|lia]
        |done|lia].
Qed.

Lemma constructor_armed now v : armed (constructor now v) now (now + LintDelay).
Proof. unfold armed, LintDelay. simpl. split_and!; try done; lia. Qed.

(** The same for a plugin started at [start] whose first edit comes
    before the first timer is overdue. *)
Lemma simulate_first_burst v start t (ch : ChangeSet)
    (rest : list (Z * ChangeSet)) :
  start <= t <= start + LintDelay -> ch <> [] -> burst t rest ->
  exists w', simulate source (2 * length ((t, ch) :: rest) + 3) ((t, ch) :: rest)
               (constructor start v) = Some w' /\
             settled w' (final_time start ((t, ch) :: rest)).
Proof.
  intros Ht Hch Hrest. destruct ch as [|c ch]; [done|].
  pose proof (constructor_armed start v) as Harmed.
  pose proof Harmed as (_ & Hts & _ & _).
  match goal with
  | |- context [simulate _ ?b _ _] =>
      replace b with (S (Nat.pred b)) by (cbn [length]; lia)
  end.
  rewrite simulate_S, Hts. cbn [next_timer foldr final_time].
  assert ((t <=? start + LintDelay) = true) as -> by (apply Z.leb_le; lia).
  eapply simulate_burst; [|done|cbn [length]; lia].
  apply (handle_edit_armed _ start (start + LintDelay)); [done|lia|lia].
Qed.

(** One step of the event loop from a waiting plugin. *)
Lemma simulate_edit budget t ch rest w last due :
  armed w last due -> t <= due ->
  simulate source (S budget) ((t, ch) :: rest) w
  = simulate source budget rest (handle source (Edit t ch) w).
Proof.
  intros (_ & Hts & _ & _) Hle. rewrite simulate_S, Hts.
  cbn [next_timer foldr]. apply Z.leb_le in Hle. by rewrite Hle.
Qed.

Lemma simulate_timer budget edits w last due :
  armed w last due ->
  match edits with [] => True | (t, _) :: _ => due < t end ->
  simulate source (S budget) edits w
  = simulate source budget edits (handle source (TimerFires due due) w).
Proof.
  intros (_ & Hts & _ & _) Hlt. rewrite simulate_S, Hts.
  cbn [next_timer foldr]. destruct edits as [|[t ch] rest]; [done|].
  apply Z.leb_gt in Hlt. by rewrite Hlt.
Qed.

Lemma handle_timer_invokes w last due :
  armed w last due -> last + LintDelay - 10 <= due ->
  invoked (handle source (TimerFires due due) w) = [due].
Proof.
  intros (Hp & Ht & Hi & Hd) Hlt.
  destruct w as [k v p ts inv]. simpl in *. subst.
  unfold LintDelay, run in *. by crunch.
Qed.

Ltac edit_step H :=
  match type of H with
  | armed ?w ?last ?due =>
      match goal with
      | |- context [simulate _ (S ?b) ((?t, ?c :: ?ch) :: ?rest) w] =>
          rewrite (simulate_edit b _ _ _ w last due H) by lia;
          apply (handle_edit_armed w last due t c ch) in H; [|lia|lia]
      end
  end.

Ltac early_step H :=
  match type of H with
  | armed ?w ?last ?due =>
      match goal with
      | |- context [simulate _ (S ?b) ?edits w] =>
          rewrite (simulate_timer b _ w last due H) by (simpl; lia);
          apply handle_timer_early in H; [|unfold LintDelay; lia];
          unfold LintDelay in H
      end
  end.

Ltac late_step H :=
  match type of H with
  | armed ?w ?last ?due =>
      match goal with
      | |- context [simulate _ (S ?b) [] w] =>
          rewrite (simulate_timer b _ w last due H) by done;
          pose proof (handle_timer_invokes w last due H
                        ltac:(unfold LintDelay; lia)) as Hinvoked;
          apply handle_timer_late in H; [|unfold LintDelay; lia];
          rewrite (simulate_settled _ _ _ H);
          destruct H as (_ & _ & _ & Htimers & _)
      end
  end.

(** The scenario of the specification, for any start less than the delay
    before the first edit. *)
Lemma simulate_scenario v start c1 ch1 c2 ch2 c3 ch3 :
  - LintDelay < start <= 0 ->
  exists w,
    simulate source 9 [(0, c1 :: ch1); (100, c2 :: ch2); (150, c3 :: ch3)]
      (constructor start v) = Some w /\
    invoked w = [650] /\ timers w = [].
Proof.
  intros Hstart.
  pose proof (constructor_armed start v) as H.
  unfold LintDelay in *.
  edit_step H.
  destruct (Z_le_gt_dec 100 (start + 500)) as [H100|H100].
  - edit_step H.
    destruct (Z_le_gt_dec 150 (start + 500)) as [H150|H150].
    + edit_step H. early_step H. late_step H.
      eexists. split; [reflexivity|]. split; [|done].
      rewrite Hinvoked. f_equal.
    + early_step H. edit_step H. early_step H. late_step H.
      eexists. split; [reflexivity|]. split; [|done].
      rewrite Hinvoked. f_equal.
  - early_step H. edit_step H. edit_step H. early_step H. late_step H.
    eexists. split; [reflexivity|]. split; [|done].
    rewrite Hinvoked. f_equal.
Qed.

Lemma handle_edit_plugin t c ch w :
  clock (handle source (Edit t (c :: ch)) w) = t /\
  lintTime (plugin (handle source (Edit t (c :: ch)) w)) = t + LintDelay /\
  set (plugin (handle source (Edit t (c :: ch)) w)) = true /\
  invoked (handle source (Edit t (c :: ch)) w) = invoked w /\
  timers (handle source (Edit t (c :: ch)) w)
  = if set (plugin w) then timers w else timers w ++ [t + LintDelay].
Proof.
  unfold handle, view_dispatch, Scheduler.update, advance, setTimeout. simpl.
  by destruct (set (plugin w)).
Qed.

Lemma handle_timer_plugin due t w :
  clock (handle source (TimerFires due t) w) = t /\
  lintTime (plugin (handle source (TimerFires due t) w)) = lintTime (plugin w) /\
  (invoked (handle source (TimerFires due t) w) = invoked w \/
   invoked (handle source (TimerFires due t) w) = invoked w ++ [t] /\
   lintTime (plugin w) - 10 <= t).
Proof.
  unfold handle, run, view_dispatch, Scheduler.update, setTimeout. simpl.
  destruct (Z.ltb_spec t (lintTime (plugin w) - 10)); simpl.
  - split_and!; [done|done|by left].
  - split_and!; [done|done|by right].
Qed.

Lemma remove_timer_Forall (P : Z -> Prop) due ts :
  Forall P ts -> Forall P (remove_timer due ts).
Proof.
  induction 1 as [|t ts Ht Hts IH]; simpl; [constructor|].
  destruct (t =? due); [done|by constructor].
Qed.

Lemma reachable_due_by_deadline w : Scheduler.reachable source w -> due_by_deadline w.
Proof.
  induction 1 as [now v|e w _ IH Hdel].
  - unfold due_by_deadline. simpl. split; [|lia]. repeat constructor. lia.
  - destruct IH as [Hdue Hlt]. destruct e as [t ch|due t]; simpl in Hdel.
    + destruct Hdel as [Hclock Hch]. destruct ch as [|c ch]; [done|].
      destruct (handle_edit_plugin t c ch w) as (Hc & Hl & _ & _ & Hts).
      unfold due_by_deadline. rewrite Hc, Hl, Hts. split; [|lia].
      assert (Forall (fun due => due <= t + LintDelay) (timers w)) as Hold.
      { eapply Forall_impl; [exact Hdue|]. simpl. intros; lia. }
      destruct (set (plugin w)); [done|].
      apply Forall_app. split; [done|]. repeat constructor. lia.
    + destruct Hdel as (_ & Hclock & _).
      unfold due_by_deadline, handle, run, view_dispatch, Scheduler.update, setTimeout.
      simpl. pose proof (remove_timer_Forall _ due _ Hdue) as Hrem.
      destruct (Z.ltb_spec t (lintTime (plugin w) - 10)); simpl.
      * split; [|lia]. apply Forall_app. split; [done|]. repeat constructor. lia.
      * split; [done|lia].
Qed.

(** *** Bursts from any reachable state *)

Lemma handle_edit_waiting inv w last due t c ch :
  waiting inv w last due -> last <= t ->
  waiting inv (handle source (Edit t (c :: ch)) w) t due.
Proof.
  intros (Hp & Ht & Hi & Hd) Hlt.
  destruct w as [k v p ts inv']. simpl in *. subst.
  unfold waiting, LintDelay in *. cbn. split_and!; try done; lia.
Qed.

Lemma handle_timer_early_waiting inv w last due :
  waiting inv w last due -> due < last + LintDelay - 10 ->
  waiting inv (handle source (TimerFires due due) w) last (last + LintDelay).
Proof.
  intros (Hp & Ht & Hi & Hd) Hlt.
  destruct w as [k v p ts inv']. simpl in *. subst.
  unfold waiting, LintDelay, run in *. crunch.
  split_and!; try done; try lia. unfold setTimeout. cbn. f_equal. lia.
Qed.

Lemma handle_timer_late_waiting inv w last due :
  waiting inv w last due -> last + LintDelay - 10 <= due ->
  settled_after inv (handle source (TimerFires due due) w) last /\
  invoked (handle source (TimerFires due due) w) = inv ++ [due].
Proof.
  intros (Hp & Ht & Hi & Hd) Hlt.
  destruct w as [k v p ts inv']. simpl in *. subst.
  unfold settled_after, LintDelay, run in *. crunch.
  split; [|done]. exists due. split_and!; try done; lia.
Qed.

Lemma simulate_settled_after budget inv w last :
  settled_after inv w last -> simulate source (S budget) [] w = Some w.
Proof. intros (T & _ & _ & Ht & _). rewrite simulate_S, Ht. reflexivity. Qed.

(** From a waiting plugin, whatever was invoked before, a burst ends with
    the source called once more, within 10 before the last edit plus the
    delay. *)
Lemma simulate_burst_waiting (edits : list (Z * ChangeSet)) :
  forall budget inv w last due,
  waiting inv w last due -> burst last edits ->
  (2 * length edits + 3 <= budget)%nat ->
  exists w', simulate source budget edits w = Some w' /\
             settled_after inv w' (final_time last edits).
Proof.
  induction edits as [|[t ch] rest IH];
    intros budget inv w last due Hwait Hburst Hbudget.
  - destruct budget as [|[|[|budget]]]; simpl in Hbudget; try lia.
    pose proof Hwait as (Hp & Ht & Hi & Hd).
    rewrite simulate_S, Ht. cbn [next_timer foldr final_time].
    destruct (Z_lt_le_dec due (last + LintDelay - 10)) as [Hearly|Hlate].
    + pose proof (handle_timer_early_waiting inv w last due Hwait Hearly) as Hwait'.
      pose proof Hwait' as (Hp' & Ht' & Hi' & Hd').
      rewrite simulate_S, Ht'. cbn [next_timer foldr].
      assert (settled_after inv
                (handle source (TimerFires (last + LintDelay) (last + LintDelay))
                   (handle source (TimerFires due due) w)) last) as Hs
          by (apply handle_timer_late_waiting; [done|lia]).
      eexists. split; [exact (simulate_settled_after _ _ _ _ Hs)|done].
    + destruct (handle_timer_late_waiting inv w last due Hwait Hlate) as [Hs _].
      eexists. split; [exact (simulate_settled_after _ _ _ _ Hs)|done].
  - destruct Hburst as (Ht & Hch & Hrest). destruct ch as [|c ch]; [done|].
    cbn [length] in Hbudget. unfold LintDelay in Ht.
    destruct budget as [|budget]; [lia|].
    pose proof Hwait as (Hp & Hts & Hi & Hd).
    rewrite simulate_S, Hts. cbn [next_timer foldr final_time].
    destruct (Z.leb_spec t due) as [Hle|Hgt].
    + eapply IH; [apply (handle_edit_waiting inv w last due); [done|lia]|done|lia].
    + assert (waiting inv (handle source (TimerFires due due) w) last (last + LintDelay))
        as Hwait' by (apply handle_timer_early_waiting; [done|unfold LintDelay; lia]).
      pose proof Hwait' as (Hp' & Hts' & Hi' & Hd').
      destruct budget as [|budget]; [lia|].
      rewrite simulate_S, Hts'. cbn [next_timer foldr].
      assert ((t <=? last + LintDelay) = true) as ->
          by (apply Z.leb_le; unfold LintDelay; lia).
      eapply IH;
        [eapply handle_edit_waiting; [exact Hwait'|lia]
        |done|lia].
Qed.

(** The first edit of a burst finds the plugin with a timer pending, or
    with none, in which case it arms one; either way the plugin is waiting
    afterwards. *)
Lemma first_edit_waiting w t c ch :
  timer_slot w -> due_by_deadline w -> clock w <= t ->
  exists due,
    waiting (invoked w) (handle source (Edit t (c :: ch)) w) t due /\
    (set (plugin w) = false -> due = t + LintDelay).
Proof.
  intros Hslot [Hdue Hdead] Hclock.
  destruct (handle_edit_plugin t c ch w) as (Hc & Hl & Hset & Hinv & Hts).
  unfold timer_slot in Hslot. unfold waiting.
  destruct (plugin (handle source (Edit t (c :: ch)) w)) as [l b] eqn:Hp.
  simpl in Hl, Hset. subst l b. rewrite Hts, Hinv.
  destruct (set (plugin w)).
  - destruct Hslot as [due Heq]. exists due. rewrite Heq in Hdue |- *.
    apply Forall_cons in Hdue as [Hdue _]. split_and!; try done. lia.
  - rewrite Hslot. exists (t + LintDelay). split_and!; try done; lia.
Qed.

(** The event loop serves the first edit of a burst at once when no timer
    is due before it. *)
Lemma simulate_first_edit budget w t (ch : ChangeSet) (rest : list (Z * ChangeSet)) :
  timer_slot w -> Forall (fun due => t <= due) (timers w) ->
  simulate source (S budget) ((t, ch) :: rest) w
  = simulate source budget rest (handle source (Edit t ch) w).
Proof.
  intros Hslot Hnotdue. rewrite simulate_S.
  unfold timer_slot in Hslot. destruct (set (plugin w)).
  - destruct Hslot as [due' Heq]. rewrite Heq in Hnotdue |- *.
    apply Forall_cons in Hnotdue as [Hle _]. cbn [next_timer foldr].
    apply Z.leb_le in Hle. by rewrite Hle.
  - by rewrite Hslot.
Qed.

(** From any world in which the pending timer, if there is one, is not due
    before the first edit, a burst ends with the source called exactly once
    more, within 10 before the last edit plus the delay. *)
Lemma simulate_burst_from w t (ch : ChangeSet) (rest : list (Z * ChangeSet)) :
  timer_slot w -> due_by_deadline w -> clock w <= t ->
  Forall (fun due => t <= due) (timers w) ->
  ch <> [] -> burst t rest ->
  exists w', simulate source (2 * length ((t, ch) :: rest) + 3) ((t, ch) :: rest) w
             = Some w' /\
             settled_after (invoked w) w' (final_time t rest).
Proof.
  intros Hslot Hdead Hclock Hnotdue Hch Hrest. destruct ch as [|c ch]; [done|].
  destruct (first_edit_waiting w t c ch Hslot Hdead Hclock) as (due & Hwait & _).
  match goal with
  | |- context [simulate _ ?b _ _] =>
      replace b with (S (Nat.pred b)) by (cbn [length]; lia)
  end.
  rewrite (simulate_first_edit _ w t _ rest Hslot Hnotdue).
  eapply simulate_burst_waiting; [exact Hwait|done|cbn [length]; lia].
Qed.

(** An idle burst, step by step: started at 0 and left alone, the plugin
    calls the source at 500; edits at 1000, 1100 and 1150 arm a new timer,
    and the source is called again at 1650. *)
Lemma simulate_idle_scenario v c1 ch1 c2 ch2 c3 ch3 :
  exists w,
    simulate source 9
      [(1000, c1 :: ch1); (1100, c2 :: ch2); (1150, c3 :: ch3)] (constructor 0 v)
    = Some w /\
    invoked w = [500; 1650] /\ timers w = [].
Proof.
  pose proof (constructor_armed 0 v) as Harmed.
  assert (Hwait0 : waiting [] (constructor 0 v) 0 (0 + LintDelay)).
  { destruct Harmed as (Hp & Hts & Hinv & Hd). unfold waiting. split_and!; try done; lia. }
  rewrite (simulate_timer 8 _ _ 0 (0 + LintDelay) Harmed)
    by (unfold LintDelay; lia).
  destruct (handle_timer_late_waiting [] _ 0 (0 + LintDelay) Hwait0)
    as [(T & _ & _ & Hts1 & Hp1) Hinv1]; [lia|].
  destruct (handle_timer_plugin (0 + LintDelay) (0 + LintDelay) (constructor 0 v))
    as (Hclock1 & _ & _).
  set (w1 := handle source (TimerFires (0 + LintDelay) (0 + LintDelay)) (constructor 0 v))
    in *.
  clearbody w1. clear Harmed Hwait0 T.
  assert (Hslot1 : timer_slot w1) by (unfold timer_slot; by rewrite Hp1).
  assert (Hdead1 : due_by_deadline w1).
  { unfold due_by_deadline. rewrite Hts1, Hp1, Hclock1. simpl.
    split; [constructor|unfold LintDelay; lia]. }
  destruct (first_edit_waiting w1 1000 c1 ch1 Hslot1 Hdead1) as (due & H & Hdue);
    [rewrite Hclock1; unfold LintDelay; lia|].
  rewrite Hdue in H by (by rewrite Hp1). rewrite Hinv1 in H.
  rewrite (simulate_first_edit 7 w1 1000 _ _ Hslot1)
    by (rewrite Hts1; constructor).
  unfold LintDelay in H. simpl app in H.
  set (w2 := handle source (Edit 1000 (c1 :: ch1)) w1) in *.
  clearbody w2. clear Hslot1 Hdead1 Hdue Hinv1 Hts1 Hp1 Hclock1 w1 due.
  assert (Hedit : forall b t c ch rest w last,
             waiting [500] w last (1000 + 500) -> t <= 1000 + 500 ->
             simulate source (S b) ((t, c :: ch) :: rest) w
             = simulate source b rest (handle source (Edit t (c :: ch)) w)).
  { intros b t c ch rest w last (_ & Hts & _) Hle. rewrite simulate_S, Hts.
    cbn [next_timer foldr]. apply Z.leb_le in Hle. by rewrite Hle. }
  rewrite (Hedit _ _ _ _ _ _ _ H) by lia.
  apply (handle_edit_waiting [500] _ _ _ 1100 c2 ch2) in H; [|lia].
  rewrite (Hedit _ _ _ _ _ _ _ H) by lia.
  apply (handle_edit_waiting [500] _ _ _ 1150 c3 ch3) in H; [|lia].
  pose proof H as (_ & Hts & _). rewrite simulate_S, Hts. cbn [next_timer foldr].
  apply handle_timer_early_waiting in H; [|unfold LintDelay; lia].
  unfold LintDelay in H.
  pose proof H as (_ & Hts2 & _). rewrite simulate_S, Hts2. cbn [next_timer foldr].
  apply handle_timer_late_waiting in H as [H Hinv]; [|unfold LintDelay; lia].
  rewrite (simulate_settled_after _ _ _ _ H).
  destruct H as (T & _ & _ & Htimers & _).
  eexists. split; [reflexivity|]. split; [|done].
  rewrite Hinv. reflexivity.
Qed.

End WithSource.

(** C3 as stated fails: started at 0 and edited at 5, the deadline is 505;
    the timer armed at the start goes off at 500, strictly before the
    deadline, and the source is invoked then. *)
Lemma invoked_before_deadline :
  let w := handle redeclared_source (Edit 5 type_char) (constructor 0 attached_view) in
  let w' := handle redeclared_source (TimerFires 500 500) w in
  timers w = [500] /\ clock w' < lintTime (plugin w) /\
  invoked w' = [500] /\ timers w' = [].
Proof. vm_compute. split_and!; reflexivity. Qed.

(** C3, amended.  The callback compares the clock with the deadline
    less 10.  Earlier than that it invokes nothing and arms a timer for
    the remaining interval, which falls due at the deadline; from then on
    it invokes the source.  Timers being exact, a burst of edits, each less
    than delay - 10 after the one before, leads to exactly one further
    invocation, at a time from 10 before (last edit + delay) to (last edit
    + delay); this holds from every reachable state of the plugin in which
    no timer is pending (the first edit then arms one) or the pending timer
    is not due before the first edit, the freshly started plugin included.
    With delay 500, a start less than 500 before time 0 and edits at 0, 100
    and 150, the source is invoked once, at 650; started at 0 and edited at
    1000, 1100 and 1150, it is invoked at 500 and at 1650.  In every
    reachable world at most one timer is pending. *)
Theorem debounce_coalesces source :
  LintDelay = 500 /\
  (forall w,
      clock w < lintTime (plugin w) - 10 ->
      invoked (run source w) = invoked w /\
      timers (run source w) = timers w ++ [lintTime (plugin w)] /\
      plugin (run source w) = plugin w) /\
  (forall w,
      lintTime (plugin w) - 10 <= clock w ->
      invoked (run source w) = invoked w ++ [clock w] /\
      timers (run source w) = timers w) /\
  (forall v start t (ch : ChangeSet) (rest : list (Z * ChangeSet)),
      start <= t <= start + LintDelay -> ch <> [] -> burst t rest ->
      exists w T,
        simulate source (2 * length ((t, ch) :: rest) + 3) ((t, ch) :: rest)
          (constructor start v) = Some w /\
        invoked w = [T] /\ timers w = [] /\
        final_time t rest + LintDelay - 10 <= T <= final_time t rest + LintDelay) /\
  (forall v start c1 ch1 c2 ch2 c3 ch3,
      - LintDelay < start <= 0 ->
      exists w,
        simulate source 9
          [(0, c1 :: ch1); (100, c2 :: ch2); (150, c3 :: ch3)] (constructor start v)
        = Some w /\
        invoked w = [650] /\ timers w = []) /\
  (forall w, Scheduler.reachable source w -> (length (timers w) <= 1)%nat) /\
  (forall w t (ch : ChangeSet) (rest : list (Z * ChangeSet)),
      Scheduler.reachable source w ->
      clock w <= t -> Forall (fun due => t <= due) (timers w) ->
      ch <> [] -> burst t rest ->
      exists w' T,
        simulate source (2 * length ((t, ch) :: rest) + 3) ((t, ch) :: rest) w
        = Some w' /\
        invoked w' = invoked w ++ [T] /\ timers w' = [] /\
        final_time t rest + LintDelay - 10 <= T <= final_time t rest + LintDelay) /\
  (forall w t c ch,
      Scheduler.reachable source w -> clock w <= t -> timers w = [] ->
      timers (handle source (Edit t (c :: ch)) w) = [t + LintDelay] /\
      lintTime (plugin (handle source (Edit t (c :: ch)) w)) = t + LintDelay /\
      invoked (handle source (Edit t (c :: ch)) w) = invoked w) /\
  (forall v c1 ch1 c2 ch2 c3 ch3,
      exists w,
        simulate source 9
          [(1000, c1 :: ch1); (1100, c2 :: ch2); (1150, c3 :: ch3)] (constructor 0 v)
        = Some w /\
        invoked w = [500; 1650] /\ timers w = []).
Proof.
  split_and!.
  - reflexivity.
  - intros w H. rewrite run_early by done.
    unfold setTimeout. simpl. split_and!; [done| |done].
    do 2 f_equal. lia.
  - intros w H. destruct (run_late source w H) as (H1 & H2 & _). done.
  - intros v start t ch rest Ht Hch Hrest.
    destruct (simulate_first_burst source v start t ch rest Ht Hch Hrest)
      as (w & Hsim & T & HT & Hbound & Hts & _).
    exists w, T. done.
  - intros. by apply simulate_scenario.
  - intros w Hreach. apply reachable_slot in Hreach.
    unfold timer_slot in Hreach.
    destruct (set (plugin w)).
    + destruct Hreach as [due ->]. simpl. lia.
    + rewrite Hreach. simpl. lia.
  - intros w t ch rest Hreach Hclock Hnotdue Hch Hrest.
    destruct (simulate_burst_from source w t ch rest
                (reachable_slot source w Hreach)
                (reachable_due_by_deadline source w Hreach)
                Hclock Hnotdue Hch Hrest)
      as (w' & Hsim & T & HT & Hbound & Hts & _).
    exists w', T. done.
  - intros w t c ch Hreach Hclock Hts.
    destruct (handle_edit_plugin source t c ch w) as (_ & Hl & _ & Hinv & Hts').
    split_and!; [|done|done]. rewrite Hts'.
    pose proof (reachable_slot source w Hreach) as Hslot.
    unfold timer_slot in Hslot. destruct (set (plugin w)).
    + destruct Hslot as [due Heq]. by rewrite Heq in Hts.
    + by rewrite Hts.
  - intros. by apply simulate_idle_scenario.
Qed.

Lemma debounce_coalesces_witness :
  (let w := handle redeclared_source (TimerFires 500 500)
              (handle redeclared_source (Edit 150 type_char)
                 (constructor 0 attached_view)) in
   invoked w = [] /\ timers w = [650] /\ (length (timers w) <= 1)%nat) /\
  (exists w T,
      simulate redeclared_source 7 [(0, type_char); (100, type_char)]
        (constructor (-20) attached_view) = Some w /\
      invoked w = [T] /\ timers w = [] /\ 590 <= T <= 600) /\
  (exists w T,
      simulate redeclared_source 7 [(1000, type_char); (1100, type_char)]
        (handle redeclared_source (TimerFires 500 500) (constructor 0 attached_view))
      = Some w /\
      invoked w = [500; T] /\ timers w = [] /\ 1590 <= T <= 1600).
Proof.
  set (w0 := handle redeclared_source (Edit 150 type_char) (constructor 0 attached_view)).
  pose proof (debounce_coalesces redeclared_source)
    as (_ & Hearly & _ & Hburst & _ & Hone & Hany & _).
  split; [split_and!|split].
  - apply (Hearly (mkWorld 500 (view w0) (plugin w0) [] (invoked w0))).
    vm_compute. reflexivity.
  - apply (Hearly (mkWorld 500 (view w0) (plugin w0) [] (invoked w0))).
    vm_compute. reflexivity.
  - apply Hone. apply reachable_step; [apply reachable_step|].
    + apply reachable_start.
    + split; [vm_compute; discriminate|discriminate].
    + split_and!; [left|vm_compute; discriminate|lia].
  - apply (Hburst attached_view (-20) 0 type_char [(100, type_char)]).
    + vm_compute. split; discriminate.
    + discriminate.
    + simpl. unfold LintDelay. split_and!; [lia|lia|discriminate|exact I].
  - apply (Hany (handle redeclared_source (TimerFires 500 500)
                   (constructor 0 attached_view))
             1000 type_char [(1100, type_char)]).
    + apply reachable_step; [apply reachable_start|].
      split_and!; [left|vm_compute; discriminate|lia].
    + vm_compute. discriminate.
    + vm_compute. constructor.
    + discriminate.
    + simpl. unfold LintDelay. split_and!; [lia|lia|discriminate|exact I].
Defined.

End SchedulerFacts.

(** ** The panel's list reconciler *)
Module PanelFacts.

(** A visitor that never stops folds over the overlapping entries. *)
Lemma between_all {V S} (g : V -> S -> S) (s : RangeSet V) (from to : N) (acc : S) :
  between s from to (fun _ _ v acc => (g v acc, true)) acc
  = fold_left (fun acc r => g (value r) acc) (List.filter (overlaps from to) s) acc.
Proof.
  revert acc. induction s as [|r s IH]; intros acc; simpl; [done|].
  unfold overlaps at 1.
  destruct ((rfrom r <=? to) && (from <=? rto r)); simpl; apply IH.
Qed.

(** The index loop and the forward search of the tail agree. *)
Lemma search_search_forward tail d j :
  match search_forward tail d with
  | Some (skipped, found, rest) =>
      tail = skipped ++ found :: rest /\
      search tail j d = Some (j + length skipped)%nat
  | None => search tail j d = None
  end.
Proof.
  revert j. induction tail as [|it tail IH]; intros j; simpl; [done|].
  destruct (Diagnostic_same (item_diagnostic it) d).
  - split; [done|]. f_equal. simpl. lia.
  - specialize (IH (S j)).
    destruct (search_forward tail d) as [[[skipped found] rest]|].
    + destruct IH as [-> ->]. split; [done|]. f_equal. simpl. lia.
    + exact IH.
Qed.

(** What the forward search finds: the skipped items do not show [d], the
    found one does. *)
Lemma search_forward_found tail d skipped found rest :
  search_forward tail d = Some (skipped, found, rest) ->
  tail = skipped ++ found :: rest /\
  Diagnostic_same (item_diagnostic found) d = true /\
  Forall (fun it => Diagnostic_same (item_diagnostic it) d = false) skipped.
Proof.
  revert skipped. induction tail as [|it tail IH]; intros skipped; simpl; [done|].
  destruct (Diagnostic_same (item_diagnostic it) d) eqn:E.
  - intros [= <- <- <-]. by split_and!.
  - destruct (search_forward tail d) as [[[skipped' found'] rest']|]; [|done].
    intros [= <- <- <-]. destruct (IH _ eq_refl) as (-> & Hf & Hs).
    split_and!; [done|done|by constructor].
Qed.

Lemma search_forward_none tail d :
  search_forward tail d = None ->
  Forall (fun it => Diagnostic_same (item_diagnostic it) d = false) tail.
Proof.
  induction tail as [|it tail IH]; simpl; [by constructor|].
  destruct (Diagnostic_same (item_diagnostic it) d) eqn:E; [done|].
  destruct (search_forward tail d) as [[[skipped' found'] rest']|]; [done|].
  intros _. constructor; [done|by apply IH].
Qed.

(** [locate] with the cursor behind [done]. *)
Lemma locate_spec d done tail ns nsel next :
  locate d (mkWalk (done ++ tail) (length done) ns nsel next)
  = match search_forward tail d with
    | Some (skipped, found, rest) =>
        (found, done ++ found :: rest,
         match skipped with [] => ns | _ :: _ => true end, next)
    | None =>
        (mkPanelItem next d false, done ++ mkPanelItem next d false :: tail,
         true, S next)
    end.
Proof.
  unfold locate. simpl. rewrite drop_app_length.
  pose proof (search_search_forward tail d (length done)) as Hs.
  destruct (search_forward tail d) as [[[skipped found] rest]|].
  - destruct Hs as [-> ->].
    rewrite lookup_app_r by lia.
    replace (length done + length skipped - length done)%nat
      with (length skipped) by lia.
    rewrite list_lookup_middle by done. simpl.
    destruct skipped as [|it skipped]; simpl.
    + replace (length done + 0)%nat with (length done) by lia.
      by rewrite Nat.ltb_irrefl.
    + assert ((length done <? length done + S (length skipped))%nat = true) as ->
          by (apply Nat.ltb_lt; lia).
      unfold splice_remove. rewrite take_app_length.
      replace (length done + (length done + S (length skipped) - length done))%nat
        with (length done + S (length skipped))%nat by lia.
      rewrite drop_app_add. simpl.
      by rewrite (drop_app_length skipped (found :: rest)).
  - rewrite Hs. simpl. unfold splice_insert.
    by rewrite take_app_length, drop_app_length.
Qed.

Lemma insert_at_cursor {A} (done : list A) x y rest :
  <[length done := x]> (done ++ y :: rest) = done ++ x :: rest.
Proof. rewrite insert_app_r_alt by lia. by rewrite Nat.sub_diag. Qed.

Lemma restyle_identity selected item nsel :
  item_identity (restyle selected item nsel).1 = item_identity item.
Proof.
  unfold restyle.
  destruct (match selected with Some _ => _ | None => _ end);
    destruct (aria_selected item); done.
Qed.

(** One visit: the cursor item is the reused or the new one, up to its
    attribute; the tail loses the skipped items. *)
Lemma visit_spec selected deco done tail ns nsel next :
  exists item ns' nsel',
    visit selected deco (mkWalk (done ++ tail) (length done) ns nsel next)
    = match search_forward tail (spec_diagnostic deco) with
      | Some (_, _, rest) =>
          mkWalk (done ++ item :: rest) (S (length done)) ns' nsel' next
      | None =>
          mkWalk (done ++ item :: tail) (S (length done)) ns' nsel' (S next)
      end /\
    item_identity item
    = match search_forward tail (spec_diagnostic deco) with
      | Some (_, found, _) => item_identity found
      | None => (next, spec_diagnostic deco)
      end.
Proof.
  unfold visit. rewrite locate_spec.
  destruct (search_forward tail (spec_diagnostic deco)) as [[[skipped found] rest]|].
  - simpl. pose proof (restyle_identity selected found nsel) as Hid.
    destruct (restyle selected found nsel) as [item2 nsel2]. simpl in *.
    exists item2. eexists. exists nsel2. split; [|done].
    by rewrite insert_at_cursor.
  - simpl.
    pose proof (restyle_identity selected (mkPanelItem next (spec_diagnostic deco) false)
                  nsel) as Hid.
    destruct (restyle selected _ nsel) as [item2 nsel2]. simpl in *.
    exists item2. eexists. exists nsel2. split; [|done].
    by rewrite insert_at_cursor.
Qed.

(** The whole walk against the specification's pass. *)
Lemma walk_reconcile selected decos : forall done tail ns nsel next,
  let w := fold_left (fun w r => visit selected (value r) w) decos
             (mkWalk (done ++ tail) (length done) ns nsel next) in
  let out := reconcile tail (map (fun r => spec_diagnostic (value r)) decos) next in
  exists done',
    take (w_i w) (w_items w) = done ++ done' /\
    map item_identity done' = map item_identity (result out.1) /\
    w_next w = out.2.
Proof.
  induction decos as [|r decos IH]; intros done tail ns nsel next; simpl.
  - exists []. rewrite take_app_length, app_nil_r. done.
  - destruct (visit_spec selected (value r) done tail ns nsel next)
      as (item & ns' & nsel' & -> & Hid).
    destruct (search_forward tail (spec_diagnostic (value r)))
      as [[[skipped found] rest]|].
    + specialize (IH (done ++ [item]) rest ns' nsel' next).
      rewrite length_app, <- app_assoc in IH. simpl in IH.
      replace (length done + 1)%nat with (S (length done)) in IH by lia.
      destruct IH as (done' & Htake & Hids & Hnext).
      destruct (reconcile rest _ next) as [s next'] eqn:E. simpl in *.
      exists (item :: done'). rewrite Htake, <- app_assoc. simpl.
      by rewrite Hid, Hids.
    + specialize (IH (done ++ [item]) tail ns' nsel' (S next)).
      rewrite length_app, <- app_assoc in IH. simpl in IH.
      replace (length done + 1)%nat with (S (length done)) in IH by lia.
      destruct IH as (done' & Htake & Hids & Hnext).
      destruct (reconcile tail _ (S next)) as [s next'] eqn:E. simpl in *.
      exists (item :: done'). rewrite Htake, <- app_assoc. simpl.
      by rewrite Hid, Hids.
Qed.

(** [update] keeps exactly the items the specification's pass produces. *)
Lemma update_reconcile doc_length field p next :
  let out := Panel.update doc_length field p next in
  let script := reconcile (items p)
                  (visited_diagnostics doc_length (diagnostics field)) next in
  map item_identity (items out.1) = map item_identity (result script.1) /\
  out.2 = script.2.
Proof.
  unfold Panel.update, visited_diagnostics. simpl.
  rewrite (between_all (fun deco w => visit (selected field) deco w)).
  destruct (walk_reconcile (selected field)
              (List.filter (overlaps 0 doc_length) (diagnostics field))
              [] (items p) false None next) as (done' & Htake & Hids & Hnext).
  simpl in *. by rewrite Htake.
Qed.

(** The pass partitions the previous items into reused and removed ones,
    and its result into reused and created ones; the result shows the
    current diagnostics in order. *)
Lemma reconcile_partition current : forall tail next,
  let s := (reconcile tail current next).1 in
  exists reused,
    result s ≡ₚ reused ++ created s /\
    tail ≡ₚ reused ++ removed s /\
    Forall2 (fun it d => Diagnostic_same (item_diagnostic it) d = true \/
                         item_diagnostic it = d)
      (result s) current /\
    Forall (fun it => (next <= item_ref it)%nat) (created s).
Proof.
  induction current as [|d current IH]; intros tail next; simpl.
  - exists []. split_and!; [done|done|constructor|constructor].
  - destruct (search_forward tail d) as [[[skipped found] rest]|] eqn:E.
    + apply search_forward_found in E as (-> & Hfound & _).
      specialize (IH rest next).
      destruct (reconcile rest current next) as [s next']. simpl in *.
      destruct IH as (reused & Hres & Htail & Hshow & Hfresh).
      exists (found :: reused). split_and!.
      * simpl. by rewrite Hres.
      * rewrite <- Permutation_middle, Htail. simpl. constructor.
        rewrite !app_assoc. f_equiv. apply Permutation_app_comm.
      * constructor; [by left|done].
      * done.
    + specialize (IH tail (S next)).
      destruct (reconcile tail current (S next)) as [s next']. simpl in *.
      destruct IH as (reused & Hres & Htail & Hshow & Hfresh).
      exists reused. split_and!.
      * by rewrite Hres, Permutation_middle.
      * done.
      * constructor; [by right|done].
      * constructor; [simpl; lia|].
        eapply Forall_impl; [exact Hfresh|]. simpl. intros; lia.
Qed.

(** C6.  [update] of the panel is the single forward pass of the
    specification: the item list it leaves is, object by object, the
    result of [reconcile] on the previous items and the diagnostics visited
    in position order, and it creates as many items.  In that pass the
    search for a diagnostic splits the remaining tail into the skipped
    items (none shows it), the found item (reused) and the rest; if
    nothing shows it the tail is kept and an item is created.  The previous
    items are the reused and the removed ones, the result the reused and
    the created ones.  For the previous list [A, B, C] and the current order
    [A, C, D]: B is removed, the items of A and C are the same objects, and
    one item is created for D. *)
Theorem reconciler_single_pass :
  (forall doc_length field p next,
      let out := Panel.update doc_length field p next in
      let script := reconcile (items p)
                      (visited_diagnostics doc_length (diagnostics field)) next in
      map item_identity (items out.1) = map item_identity (result script.1) /\
      out.2 = script.2) /\
  (forall tail d,
      match search_forward tail d with
      | Some (skipped, found, rest) =>
          tail = skipped ++ found :: rest /\
          Diagnostic_same (item_diagnostic found) d = true /\
          Forall (fun it => Diagnostic_same (item_diagnostic it) d = false) skipped
      | None => Forall (fun it => Diagnostic_same (item_diagnostic it) d = false) tail
      end) /\
  (forall tail current next,
      let s := (reconcile tail current next).1 in
      exists reused,
        result s ≡ₚ reused ++ created s /\
        tail ≡ₚ reused ++ removed s /\
        length (result s) = length current /\
        Forall (fun it => (next <= item_ref it)%nat) (created s)) /\
  visited_diagnostics 20 (diagnostics field_ACD) = [diag_A; diag_C; diag_D] /\
  Panel.update 20 field_ACD panel_ABC 60%nat
  = (mkLintPanel [item_A; item_C; mkPanelItem 60 diag_D false] (Some 50%nat) 1, 61%nat) /\
  reconcile [item_A; item_B; item_C] [diag_A; diag_C; diag_D] 60%nat
  = (mkScript [item_A; item_C; mkPanelItem 60 diag_D false] [item_B]
       [mkPanelItem 60 diag_D false], 61%nat).
Proof.
  split_and!.
  - apply update_reconcile.
  - intros tail d.
    destruct (search_forward tail d) as [[[skipped found] rest]|] eqn:E.
    + by apply search_forward_found.
    + by apply search_forward_none.
  - intros tail current next.
    destruct (reconcile_partition current tail next)
      as (reused & Hres & Htail & Hshow & Hfresh).
    exists reused. split_and!; [done|done| |done].
    by apply Forall2_length in Hshow.
  - reflexivity.
  - reflexivity.
  - reflexivity.
Qed.

End PanelFacts.

Import ViewParts PanelDom LintMoreSpec PanelSpec SchedulerTrace.

(** ** More on the panel's list *)
Module PanelMoreFacts.

Import PanelFacts.

Lemma restyle_fst selected item nsel :
  (restyle selected item nsel).1 = restyled selected item.
Proof.
  unfold restyle, restyled, sel_matches. destruct item as [r d a]. simpl.
  destruct (match selected with Some _ => _ | None => _ end); destruct a; done.
Qed.

Lemma restyle_snd_consistent selected item nsel :
  aria_selected item = sel_matches selected item ->
  (restyle selected item nsel).2 = nsel.
Proof.
  unfold restyle, sel_matches. intros ->.
  by destruct (match selected with Some _ => _ | None => _ end).
Qed.

Lemma restyled_consistent selected item :
  aria_selected item = sel_matches selected item -> restyled selected item = item.
Proof. destruct item as [r d a]. unfold restyled. simpl. by intros ->. Qed.

Lemma restyled_aria selected item :
  aria_selected (restyled selected item) = sel_matches selected (restyled selected item).
Proof. done. Qed.

(** One visit, exactly. *)
Lemma visit_exact selected deco done tail ns nsel next :
  visit selected deco (mkWalk (done ++ tail) (length done) ns nsel next)
  = match search_forward tail (spec_diagnostic deco) with
    | Some (skipped, found, rest) =>
        mkWalk (done ++ restyled selected found :: rest) (S (length done))
          (match skipped with [] => ns | _ :: _ => true end)
          (restyle selected found nsel).2 next
    | None =>
        mkWalk (done ++ restyled selected (mkPanelItem next (spec_diagnostic deco) false)
                        :: tail)
          (S (length done)) true
          (restyle selected (mkPanelItem next (spec_diagnostic deco) false) nsel).2
          (S next)
    end.
Proof.
  unfold visit. rewrite locate_spec.
  destruct (search_forward tail (spec_diagnostic deco)) as [[[skipped found] rest]|];
    simpl.
  - rewrite <- (restyle_fst selected found nsel).
    destruct (restyle selected found nsel) as [item2 nsel2]. simpl.
    by rewrite insert_at_cursor.
  - rewrite <- (restyle_fst selected _ nsel).
    destruct (restyle selected _ nsel) as [item2 nsel2]. simpl.
    by rewrite insert_at_cursor.
Qed.

Lemma search_forward_head it tail d :
  item_shows it d -> search_forward (it :: tail) d = Some ([], it, tail).
Proof. unfold item_shows. simpl. by intros ->. Qed.

(** Items that already show the visited diagnostics, one by one, are kept
    where they are; nothing is created and [needsSync] is not set. *)
Lemma walk_kept selected kept decos :
  Forall2 (fun it r => item_shows it (spec_diagnostic (value r))) kept decos ->
  forall done extra ns nsel next,
  exists nsel',
    walk selected decos (mkWalk (done ++ kept ++ extra) (length done) ns nsel next)
    = mkWalk (done ++ map (restyled selected) kept ++ extra)
        (length done + length kept) ns nsel' next /\
    (Forall (fun it => aria_selected it = sel_matches selected it) kept -> nsel' = nsel).
Proof.
  unfold walk.
  induction 1 as [|it r kept decos Hshow _ IH]; intros done extra ns nsel next; simpl.
  - exists nsel. by rewrite Nat.add_0_r.
  - rewrite visit_exact, (search_forward_head it (kept ++ extra) _ Hshow).
    cbv beta iota.
    destruct (IH (done ++ [restyled selected it]) extra ns
                (restyle selected it nsel).2 next) as (nsel' & Hwalk & Hnsel).
    rewrite length_app, <- !app_assoc in Hwalk. simpl in Hwalk.
    replace (length done + 1)%nat with (S (length done)) in Hwalk by lia.
    exists nsel'. split.
    + rewrite Hwalk. f_equal. lia.
    + intros Hall. apply Forall_cons in Hall as [Hit Hall].
      rewrite (Hnsel Hall). by apply restyle_snd_consistent.
Qed.

(** What any walk leaves before the cursor: one item per visited
    decoration, showing its diagnostic, with its attribute in line with the
    selection. *)
Lemma walk_result selected decos : forall done tail ns nsel next,
  exists res rem ns' nsel' next',
    walk selected decos (mkWalk (done ++ tail) (length done) ns nsel next)
    = mkWalk (done ++ res ++ rem) (length done + length res) ns' nsel' next' /\
    Forall2 (fun it r => item_shows it (spec_diagnostic (value r))) res decos /\
    Forall (fun it => aria_selected it = sel_matches selected it) res.
Proof.
  unfold walk.
  induction decos as [|r decos IH]; intros done tail ns nsel next; simpl.
  - exists [], tail, ns, nsel, next. rewrite Nat.add_0_r. by split_and!.
  - rewrite visit_exact.
    destruct (search_forward tail (spec_diagnostic (value r)))
      as [[[skipped found] rest]|] eqn:E.
    + apply search_forward_found in E as (_ & Hshow & _).
      destruct (IH (done ++ [restyled selected found]) rest
                  (match skipped with [] => ns | _ :: _ => true end)
                  (restyle selected found nsel).2 next)
        as (res & rem & ns' & nsel' & next' & Hwalk & Hres & Haria).
      rewrite length_app, <- !app_assoc in Hwalk. simpl in Hwalk.
      replace (length done + 1)%nat with (S (length done)) in Hwalk by lia.
      exists (restyled selected found :: res), rem, ns', nsel', next'.
      split_and!.
      * rewrite Hwalk. simpl. f_equal. lia.
      * by constructor.
      * by constructor.
    + destruct (IH (done ++ [restyled selected
                               (mkPanelItem next (spec_diagnostic (value r)) false)])
                  tail true
                  (restyle selected (mkPanelItem next (spec_diagnostic (value r)) false)
                     nsel).2 (S next))
        as (res & rem & ns' & nsel' & next' & Hwalk & Hres & Haria).
      rewrite length_app, <- !app_assoc in Hwalk. simpl in Hwalk.
      replace (length done + 1)%nat with (S (length done)) in Hwalk by lia.
      eexists (_ :: res), rem, ns', nsel', next'.
      split_and!.
      * rewrite Hwalk. simpl. f_equal. lia.
      * constructor; [|done]. unfold item_shows, Diagnostic_same. simpl.
        apply Nat.eqb_refl.
      * by constructor.
Qed.

Lemma update_walk doc_length field p next :
  Panel.update doc_length field p next
  = let w := walk (selected field)
               (List.filter (overlaps 0 doc_length) (diagnostics field))
               (mkWalk (items p) 0%nat false None next) in
    (mkLintPanel (take (w_i w) (w_items w))
       (match w_newSelectedItem w with
        | Some it => Some (item_ref it)
        | None => match take (w_i w) (w_items w) with
                  | [] => None
                  | _ :: _ => activedescendant p
                  end
        end)
       (if w_needsSync w then S (sync_calls p) else sync_calls p),
     w_next w).
Proof.
  unfold Panel.update, walk.
  by rewrite (between_all (fun deco w => visit (selected field) deco w)).
Qed.

(** X1.  After [update] the panel holds one item per diagnostic visited in
    the document, in position order, each showing that diagnostic. *)
Theorem update_shows_current doc_length field p next :
  Forall2 item_shows (items (Panel.update doc_length field p next).1)
    (visited_diagnostics doc_length (diagnostics field)).
Proof.
  rewrite update_walk. simpl.
  destruct (walk_result (selected field)
              (List.filter (overlaps 0 doc_length) (diagnostics field))
              [] (items p) false None next)
    as (res & rem & ns' & nsel' & next' & Hwalk & Hres & _).
  simpl in Hwalk. rewrite Hwalk. simpl. rewrite take_app_length.
  unfold visited_diagnostics. by apply Forall2_fmap_r.
Qed.

(** X2.  After [update] an item carries [aria-selected] exactly when the
    state has a selection and the item shows the selected diagnostic. *)
Theorem update_marks_selection doc_length field p next :
  Forall (fun it => aria_selected it = sel_matches (selected field) it)
    (items (Panel.update doc_length field p next).1).
Proof.
  rewrite update_walk. simpl.
  destruct (walk_result (selected field)
              (List.filter (overlaps 0 doc_length) (diagnostics field))
              [] (items p) false None next)
    as (res & rem & ns' & nsel' & next' & Hwalk & _ & Haria).
  simpl in Hwalk. rewrite Hwalk. simpl. by rewrite take_app_length.
Qed.

(** X3.  If a prefix of the panel's items shows the visited diagnostics one
    by one, [update] keeps that prefix (attributes brought in line), drops
    the items after it from the list, creates nothing and does not call
    [sync].  This includes the case of no diagnostics at all. *)
Theorem update_drops_trailing_without_sync doc_length field p next kept extra :
  items p = kept ++ extra ->
  Forall2 item_shows kept (visited_diagnostics doc_length (diagnostics field)) ->
  let out := Panel.update doc_length field p next in
  items out.1 = map (restyled (selected field)) kept /\
  sync_calls out.1 = sync_calls p /\
  out.2 = next.
Proof.
  intros Hitems Hshow. rewrite update_walk, Hitems. simpl.
  unfold visited_diagnostics in Hshow.
  apply (Forall2_fmap_r (fun r : Range Decoration => spec_diagnostic (value r))
           item_shows) in Hshow.
  destruct (walk_kept (selected field) kept _ Hshow [] extra false None next)
    as (nsel' & Hwalk & _).
  simpl in Hwalk. rewrite Hwalk. simpl.
  split_and!; [|done|done].
  rewrite <- (length_map (restyled (selected field)) kept).
  by rewrite take_app_length.
Qed.

Lemma update_drops_trailing_without_sync_witness :
  let out := Panel.update 20 (create 0%nat).1 Examples.panel_ABC 60%nat in
  items out.1 = [] /\ sync_calls out.1 = 0%nat /\ out.2 = 60%nat.
Proof.
  apply (update_drops_trailing_without_sync 20 (create 0%nat).1 Examples.panel_ABC
           60%nat [] (items Examples.panel_ABC)).
  - reflexivity.
  - simpl. constructor.
Defined.

(** X4.  [update] is idempotent: run again on the panel it produced, for the
    same state, it changes nothing, allocates nothing and does not call
    [sync]. *)
Theorem update_idempotent doc_length field p next next2 :
  Panel.update doc_length field (Panel.update doc_length field p next).1 next2
  = ((Panel.update doc_length field p next).1, next2).
Proof.
  rewrite (update_walk doc_length field p next). simpl.
  set (decos := List.filter (overlaps 0 doc_length) (diagnostics field)).
  destruct (walk_result (selected field) decos [] (items p) false None next)
    as (res & rem & ns' & nsel' & next' & Hwalk & Hres & Haria).
  simpl in Hwalk.
  assert (Hnil : decos = [] -> nsel' = None /\ res = []).
  { intros Hd. rewrite Hd in Hwalk, Hres. apply Forall2_nil_inv_r in Hres as ->.
    simpl in Hwalk. by injection Hwalk as _ _ <- _. }
  rewrite Hwalk. simpl. rewrite take_app_length.
  rewrite update_walk. simpl. fold decos.
  destruct (walk_kept (selected field) res decos Hres [] [] false None next2)
    as (nsel2 & Hwalk2 & Hnsel2).
  simpl in Hwalk2. rewrite app_nil_r in Hwalk2.
  rewrite Hwalk2, (Hnsel2 Haria). simpl.
  assert (map (restyled (selected field)) res = res) as ->.
  { clear -Haria. induction Haria as [|it res Hit _ IH]; simpl; [done|].
    by rewrite IH, restyled_consistent. }
  rewrite app_nil_r, firstn_all. f_equal. f_equal.
  destruct res as [|it res]; [|done].
  destruct decos; [by destruct Hnil as [-> _]|]. by apply Forall2_nil_cons_inv in Hres.
Qed.

End PanelMoreFacts.


(** ** Synchronising the DOM list *)
Module SyncFacts.

Import PanelFacts PanelMoreFacts.

Lemma remove_until_first dom rest :
  dom ∈ rest -> exists post, remove_until dom rest = Some post.
Proof.
  induction rest as [|n rest IH]; intros Hin; [by apply elem_of_nil in Hin|].
  simpl. destruct (Nat.eqb_spec n dom) as [->|Hne]; [by eexists|].
  apply elem_of_cons in Hin as [->|Hin]; [done|by apply IH].
Qed.

(** The loop of [sync] over items with distinct nodes, none of them before
    the cursor: it never runs off the end, and lines the nodes up before the
    cursor in item order. *)
Lemma sync_items_distinct its : forall before rest,
  NoDup (map item_dom its) ->
  (forall n, n ∈ map item_dom its -> n ∉ before) ->
  exists rest', sync_items its before rest = Some (before ++ map item_dom its, rest').
Proof.
  induction its as [|it its IH]; intros before rest Hnd Hfresh; simpl.
  - exists rest. by rewrite app_nil_r.
  - simpl in Hnd. apply NoDup_cons in Hnd as [Hit Hnd].
    assert (Hfresh' : forall n, n ∈ map item_dom its -> n ∉ before ++ [item_dom it]).
    { intros n Hn. apply not_elem_of_app. split.
      - apply Hfresh. by right.
      - intros ->%list_elem_of_singleton. done. }
    assert (Hnb : item_dom it ∉ before) by (apply Hfresh; by left).
    destruct (decide (item_dom it ∈ rest)) as [Hin|Hnin].
    + rewrite bool_decide_eq_true_2 by (apply elem_of_app; by right).
      destruct (remove_until_first _ _ Hin) as (post & ->).
      destruct (IH (before ++ [item_dom it]) post Hnd Hfresh') as (rest' & ->).
      exists rest'. by rewrite <- app_assoc.
    + rewrite bool_decide_eq_false_2
        by (intros [?|?]%elem_of_app; done).
      destruct (IH (before ++ [item_dom it]) rest Hnd Hfresh') as (rest' & ->).
      exists rest'. by rewrite <- app_assoc.
Qed.

(** X5.  For items with distinct nodes [sync] never throws, whatever the
    list element held before: afterwards its children are the items' nodes
    in item order, or one new "No diagnostics" node when there is no
    item. *)
Theorem sync_lines_up_items its children next :
  NoDup (map item_dom its) ->
  sync its children next
  = match its with
    | [] => (Some [next], S next)
    | _ :: _ => (Some (map item_dom its), next)
    end.
Proof.
  intros Hnd. unfold sync.
  destruct (sync_items_distinct its [] children Hnd) as (rest' & ->).
  { intros n _. apply not_elem_of_nil. }
  simpl. by destruct its.
Qed.

Lemma sync_lines_up_items_witness :
  sync [Examples.item_A; Examples.item_C; mkPanelItem 60 Examples.diag_D false]
    [50; 51; 52]%nat 61%nat
  = (Some [50; 52; 60]%nat, 61%nat).
Proof.
  apply (sync_lines_up_items
           [Examples.item_A; Examples.item_C; mkPanelItem 60 Examples.diag_D false]).
  apply (bool_decide_unpack (NoDup _)). vm_compute. exact I.
Defined.

Lemma reconcile_allocated current : forall tail next,
  items_allocated tail next ->
  items_allocated (result (reconcile tail current next).1)
    (reconcile tail current next).2 /\
  (next <= (reconcile tail current next).2)%nat /\
  Forall (fun it => item_ref it ∈ map item_ref tail \/ (next <= item_ref it)%nat)
    (result (reconcile tail current next).1).
Proof.
  induction current as [|d current IH]; intros tail next [Hnd Hlt]; simpl.
  - split_and!; [split; constructor|done|constructor].
  - destruct (search_forward tail d) as [[[skipped found] rest]|] eqn:E.
    + apply search_forward_found in E as (-> & _ & _).
      rewrite map_app in Hnd. simpl in Hnd.
      apply NoDup_app in Hnd as (_ & _ & Hnd). apply NoDup_cons in Hnd as [Hf Hnd].
      apply Forall_app in Hlt as [_ Hlt]. apply Forall_cons in Hlt as [Hflt Hlt].
      destruct (IH rest next (conj Hnd Hlt)) as ([Hnd' Hlt'] & Hle & Hfrom).
      destruct (reconcile rest current next) as [s next']. simpl in *.
      split_and!.
      * split.
        -- constructor; [|done]. intros Hin.
           apply list_elem_of_fmap in Hin as (it & Heq & Hit).
           rewrite Forall_forall in Hfrom. destruct (Hfrom it Hit) as [Hr|Hr].
           ++ rewrite <- Heq in Hr. done.
           ++ lia.
        -- constructor; [lia|done].
      * done.
      * constructor.
        -- left. rewrite map_app. apply elem_of_app. right. left.
        -- eapply Forall_impl; [exact Hfrom|]. simpl. intros it [Hr|Hr]; [|by right].
           left. rewrite map_app. apply elem_of_app. right. by right.
    + assert (items_allocated tail (S next)) as Halloc.
      { split; [done|]. eapply Forall_impl; [exact Hlt|]. simpl. intros; lia. }
      destruct (IH tail (S next) Halloc) as ([Hnd' Hlt'] & Hle & Hfrom).
      destruct (reconcile tail current (S next)) as [s next']. simpl in *.
      split_and!.
      * split.
        -- constructor; [|done]. intros Hin.
           apply list_elem_of_fmap in Hin as (it & Heq & Hit).
           rewrite Forall_forall in Hfrom. destruct (Hfrom it Hit) as [Hr|Hr].
           ++ apply list_elem_of_fmap in Hr as (it' & Heq' & Hit').
              rewrite Forall_forall in Hlt. specialize (Hlt it' Hit'). simpl in *. lia.
           ++ simpl in *. lia.
        -- constructor; [simpl; lia|done].
      * lia.
      * constructor; [right; simpl; lia|].
        eapply Forall_impl; [exact Hfrom|]. simpl. intros it [Hr|Hr]; [by left|].
        right. lia.
Qed.

(** X6.  [update] keeps the items of the panel distinct objects allocated
    before the counter, so the [sync] that follows cannot throw and leaves
    the list element with exactly the nodes of the new items. *)
Theorem update_keeps_items_distinct doc_length field p next :
  items_allocated (items p) next ->
  let out := Panel.update doc_length field p next in
  items_allocated (items out.1) out.2 /\
  (next <= out.2)%nat /\
  forall children,
    (sync (items out.1) children out.2).1
    = Some (match items out.1 with
            | [] => [out.2]
            | _ :: _ => map item_dom (items out.1)
            end).
Proof.
  intros Halloc.
  destruct (update_reconcile doc_length field p next) as [Hids Hnext].
  cbv zeta in *.
  destruct (reconcile_allocated
              (visited_diagnostics doc_length (diagnostics field)) (items p) next Halloc)
    as ([Hnd Hlt] & Hle & _).
  assert (Hrefs : map item_ref (items (Panel.update doc_length field p next).1)
                  = map item_ref (result (reconcile (items p)
                      (visited_diagnostics doc_length (diagnostics field)) next).1)).
  { apply (f_equal (map fst)) in Hids. by rewrite !map_map in Hids. }
  rewrite Hnext.
  assert (Halloc' : items_allocated (items (Panel.update doc_length field p next).1)
                      (reconcile (items p)
                         (visited_diagnostics doc_length (diagnostics field)) next).2).
  { split; [by rewrite Hrefs|].
    apply Forall_forall. intros it Hit.
    assert (item_ref it ∈ map item_ref (items (Panel.update doc_length field p next).1))
      as Hin by (by apply list_elem_of_fmap_2).
    rewrite Hrefs in Hin. apply list_elem_of_fmap in Hin as (it' & -> & Hit').
    rewrite Forall_forall in Hlt. by apply Hlt. }
  split; [exact Halloc'|]. split; [exact Hle|].
  intros children. unfold sync.
  destruct (sync_items_distinct (items (Panel.update doc_length field p next).1)
              [] children (proj1 Halloc')) as (rest' & ->).
  { intros n _. apply not_elem_of_nil. }
  rewrite app_nil_l.
  destruct (items (Panel.update doc_length field p next).1); reflexivity.
Qed.

Lemma update_keeps_items_distinct_witness :
  items_allocated (items (Panel.update 20 Examples.field_ACD Examples.panel_ABC 60%nat).1)
    (Panel.update 20 Examples.field_ACD Examples.panel_ABC 60%nat).2.
Proof.
  apply (update_keeps_items_distinct 20 Examples.field_ACD Examples.panel_ABC 60%nat).
  split.
  - apply (bool_decide_unpack (NoDup _)). vm_compute. exact I.
  - repeat constructor; simpl; lia.
Defined.

End SyncFacts.


(** ** More on the state field and what the view shows of it *)
Module LintMoreFacts.

Import LintFacts.

Lemma find_first_split {A} (p : A -> bool) (l : list A) :
  match find p l with
  | Some x => exists pre post,
      l = pre ++ x :: post /\ p x = true /\ Forall (fun y => p y = false) pre
  | None => Forall (fun y => p y = false) l
  end.
Proof.
  induction l as [|a l IH]; simpl; [constructor|].
  destruct (p a) eqn:E.
  - exists [], l. by split_and!.
  - destruct (find p l) as [x|].
    + destruct IH as (pre & post & -> & Hx & Hpre).
      exists (a :: pre), post. split_and!; [done|done|by constructor].
    + by constructor.
Qed.

Lemma find_unique {A} (p : A -> bool) (l : list A) x :
  x ∈ l -> p x = true -> (forall y, y ∈ l -> p y = true -> y = x) ->
  find p l = Some x.
Proof.
  intros Hin Hp Huniq.
  pose proof (find_first_split p l) as Hf.
  destruct (find p l) as [y|].
  - destruct Hf as (pre & post & -> & Hy & _).
    f_equal. apply Huniq; [|done]. apply elem_of_app. right. left.
  - rewrite Forall_forall in Hf. rewrite (Hf x Hin) in Hp. done.
Qed.

(** X7.  On a set of well-formed anchors [findDiagnostic] returns the first
    anchor in document order that ends at or after [after] and, when a
    diagnostic is given, shows that very object; it returns nothing exactly
    when no anchor qualifies. *)
Theorem findDiagnostic_first s diagnostic after :
  anchors_ok s ->
  match findDiagnostic s diagnostic after with
  | Some sel =>
      exists pre r post,
        s = pre ++ r :: post /\ sel = selectedOf r /\
        after <= rto r /\ accepts diagnostic r = true /\
        Forall (fun r' => ~ (after <= rto r' /\ accepts diagnostic r' = true)) pre
  | None => Forall (fun r' => ~ (after <= rto r' /\ accepts diagnostic r' = true)) s
  end.
Proof.
  intros Hok. rewrite findDiagnostic_ok by done.
  pose proof (find_first_split
                (fun r => at_or_after after r && accepts diagnostic r) s) as Hf.
  assert (Hneg : forall l : list (Range Decoration),
             Forall (fun y => at_or_after after y && accepts diagnostic y = false) l ->
             Forall (fun r' => ~ (after <= rto r' /\ accepts diagnostic r' = true)) l).
  { intros l Hl. eapply Forall_impl; [exact Hl|]. simpl. intros r' Hr' [Hle Hacc].
    unfold at_or_after in Hr'. apply N.leb_le in Hle. by rewrite Hle, Hacc in Hr'. }
  cbv beta in Hf.
  destruct (find _ s) as [r|]; simpl.
  - destruct Hf as (pre & post & -> & Hr & Hpre).
    apply andb_true_iff in Hr as [Hle Hacc]. apply N.leb_le in Hle.
    exists pre, r, post. split_and!; try done. by apply Hneg.
  - by apply Hneg.
Qed.

Lemma findDiagnostic_first_witness :
  match findDiagnostic (diagnostics sticky_before) (Some (diag_at 2 10 15)) 3 with
  | Some sel =>
      exists pre r post,
        diagnostics sticky_before = pre ++ r :: post /\ sel = selectedOf r /\
        3 <= rto r /\ accepts (Some (diag_at 2 10 15)) r = true /\
        Forall (fun r' => ~ (3 <= rto r' /\ accepts (Some (diag_at 2 10 15)) r' = true))
          pre
  | None =>
      Forall (fun r' => ~ (3 <= rto r' /\ accepts (Some (diag_at 2 10 15)) r' = true))
        (diagnostics sticky_before)
  end.
Proof.
  apply (findDiagnostic_first (diagnostics sticky_before) (Some (diag_at 2 10 15)) 3).
  apply anchors_ok_built.
Defined.

Lemma shows_refl r : shows (spec_diagnostic (value r)) r = true.
Proof. unfold shows, Diagnostic_same. apply Nat.eqb_refl. Qed.

Lemma sole_anchor_map ch r s :
  sole_anchor r s -> sole_anchor (Range_map ch r) (RangeSet_map ch s).
Proof.
  intros [Hin Huniq]. unfold RangeSet_map. split.
  - rewrite RangeSet_of_perm. by apply list_elem_of_fmap_2.
  - intros r'. rewrite RangeSet_of_perm.
    intros (r0 & -> & Hr0)%list_elem_of_fmap Hshow.
    f_equal. by apply Huniq.
Qed.

Lemma findDiagnostic_sole r s after :
  anchors_ok s -> sole_anchor r s -> after <= rto r ->
  findDiagnostic s (Some (spec_diagnostic (value r))) after = Some (selectedOf r).
Proof.
  intros Hok [Hin Huniq] Hle. rewrite findDiagnostic_ok by done.
  rewrite (find_unique _ s r); [done|done| |].
  - unfold at_or_after. apply N.leb_le in Hle. rewrite Hle. apply shows_refl.
  - intros y Hy [_ Hacc]%andb_true_iff. by apply Huniq.
Qed.

(** A change that ends strictly before an anchor shifts the anchor by the
    length difference of the change; a change that starts strictly after
    it leaves the anchor where it is. *)
Lemma Range_map_change_before {V} c (r : Range V) :
  cfrom c <= cto c -> cto c < rfrom r -> rfrom r <= rto r ->
  Range_map [c] r
  = mkRange (rfrom r + cinsert c - (cto c - cfrom c))
      (rto r + cinsert c - (cto c - cfrom c)) (Substrate.value r).
Proof.
  intros Hc Hp Hle. unfold Range_map, mapPos, Change_mapPos.
  cbn [fold_left].
  assert (Hf : (rfrom r <? cfrom c) = false) by (apply N.ltb_ge; lia).
  assert (Ht : (rto r <? cfrom c) = false) by (apply N.ltb_ge; lia).
  assert (Hf' : (cto c <? rfrom r) = true) by (apply N.ltb_lt; lia).
  assert (Ht' : (cto c <? rto r) = true) by (apply N.ltb_lt; lia).
  by rewrite Hf, Ht, Hf', Ht'.
Qed.

Lemma Range_map_change_after {V} c (r : Range V) :
  rto r < cfrom c -> rfrom r <= rto r -> Range_map [c] r = r.
Proof.
  intros Hp Hle. unfold Range_map, mapPos, Change_mapPos.
  cbn [fold_left].
  assert (Hf : (rfrom r <? cfrom c) = true) by (apply N.ltb_lt; lia).
  assert (Ht : (rto r <? cfrom c) = true) by (apply N.ltb_lt; lia).
  rewrite Hf, Ht. by destruct r.
Qed.

(** X8.  Selection stickiness.  When the selection names the only anchor of
    its diagnostic, an edit that lies entirely before that anchor moves the
    selection with it, by the length difference of the edit, and an edit
    that lies entirely after it leaves the selection where it is; in both
    cases the selection keeps naming the same diagnostic object. *)
Theorem selection_follows_its_anchor value c next r :
  anchors_ok (diagnostics value) ->
  sole_anchor r (diagnostics value) ->
  selected value = Some (selectedOf r) ->
  cfrom c <= cto c ->
  let res := (Lint.update value (mkTransaction None None [c]) next).1 in
  (cto c < rfrom r ->
   selected res
   = Some (mkSelected (rfrom r + cinsert c - (cto c - cfrom c))
             (rto r + cinsert c - (cto c - cfrom c))
             (spec_diagnostic (Substrate.value r)))) /\
  (rto r < cfrom c -> selected res = Some (selectedOf r)).
Proof.
  intros Hok Hsole Hsel Hc.
  rewrite update_docChanged. cbn [fst selected diagnostics changes]. rewrite Hsel.
  cbv zeta.
  assert (Hle : rfrom r <= rto r).
  { destruct Hsole as [Hin _]. unfold anchors_ok in Hok.
    rewrite Forall_forall in Hok. by apply Hok. }
  pose proof (anchors_ok_map [c] _ Hok) as Hok'.
  pose proof (sole_anchor_map [c] r _ Hsole) as Hsole'.
  pose proof (findDiagnostic_sole _ _ (mapPos [c] (sel_from (selectedOf r)) 1)
                Hok' Hsole') as Hfound.
  assert (Hreach : mapPos [c] (sel_from (selectedOf r)) 1 <= rto (Range_map [c] r)).
  { change (mapPos [c] (rfrom r) 1 <= mapPos [c] (rto r) 1). by apply mapPos_mono. }
  specialize (Hfound Hreach).
  change (sel_diagnostic (selectedOf r)) with (spec_diagnostic (Substrate.value r)).
  change (Substrate.value (Range_map [c] r)) with (Substrate.value r) in Hfound.
  rewrite Hfound. split.
  - intros Hbefore. by rewrite (Range_map_change_before c r Hc Hbefore Hle).
  - intros Hafter. by rewrite (Range_map_change_after c r Hafter Hle).
Qed.

Lemma selection_follows_its_anchor_witness :
  selected (Lint.update sticky_before insert3_at0 5%nat).1
  = Some (mkSelected 13 18 (diag_at 2 10 15)).
Proof.
  refine (proj1 (selection_follows_its_anchor sticky_before (mkChange 0 0 3) 5%nat
                   (diagnosticRange (diag_at 2 10 15)) _ _ _ _) _).
  - apply anchors_ok_built.
  - split.
    + right. left.
    + intros r' Hr' Hshow. vm_compute in Hr'.
      repeat (apply elem_of_cons in Hr' as [->|Hr']); try reflexivity;
        try (vm_compute in Hshow; discriminate).
      by apply elem_of_nil in Hr'.
  - reflexivity.
  - reflexivity.
  - reflexivity.
Defined.




End LintMoreFacts.


(** ** Tooltips, actions and the active range *)
Module ViewFacts.

Import LintFacts LintMoreFacts.

(** X9.  A click on an action of a diagnostic that has one anchor calls
    [apply] with that anchor's positions in the current state, not with the
    ones the diagnostic was created with: after an edit that lies entirely
    before the anchor these are the positions shifted by the length
    difference of the edit.  For a diagnostic without an anchor [apply] is
    not called. *)
Theorem action_applies_at_current_position view field :
  field_lintState (state view) = Some field ->
  anchors_ok (diagnostics field) ->
  (forall r,
      sole_anchor r (diagnostics field) ->
      action_onclick view (spec_diagnostic (value r)) = Some (Some (rfrom r, rto r)) /\
      forall c,
        cfrom c <= cto c -> cto c < rfrom r ->
        action_onclick (dispatch (mkTransaction None None [c]) view)
          (spec_diagnostic (value r))
        = Some (Some (rfrom r + cinsert c - (cto c - cfrom c),
                      rto r + cinsert c - (cto c - cfrom c)))) /\
  (forall d,
      Forall (fun r => shows d r = false) (diagnostics field) ->
      action_onclick view d = Some None).
Proof.
  intros Hf Hok. split.
  - intros r Hsole. split.
    + unfold action_onclick. rewrite Hf.
      rewrite (findDiagnostic_sole r) by (done || lia). done.
    + intros c Hc Hbefore.
      assert (Hle : rfrom r <= rto r).
      { destruct Hsole as [Hin _]. unfold anchors_ok in Hok.
        rewrite Forall_forall in Hok. by apply Hok. }
      unfold action_onclick, dispatch, Transaction_apply.
      rewrite Hf. rewrite update_docChanged. cbn [state field_lintState diagnostics].
      pose proof (findDiagnostic_sole (Range_map [c] r)
                    (RangeSet_map [c] (diagnostics field)) 0
                    (anchors_ok_map [c] _ Hok) (sole_anchor_map [c] r _ Hsole)) as Hfound.
      change (value (Range_map [c] r)) with (value r) in Hfound.
      rewrite Hfound by lia.
      by rewrite (Range_map_change_before c r Hc Hbefore Hle).
  - intros d Hnone. unfold action_onclick. rewrite Hf.
    rewrite findDiagnostic_ok by done.
    pose proof (find_first_split (fun r => at_or_after 0 r && accepts (Some d) r)
                  (diagnostics field)) as Hfind.
    destruct (find _ (diagnostics field)) as [r|]; [|done].
    destruct Hfind as (pre & post & Heq & Hr & _).
    apply andb_true_iff in Hr as [_ Hr]. change (shows d r = true) in Hr.
    rewrite Forall_forall in Hnone.
    rewrite (Hnone r) in Hr; [done|]. rewrite Heq. apply elem_of_app. right. left.
Qed.

Lemma action_applies_at_current_position_witness :
  let view := mkEditorView (mkEditorState 30 (Some sticky_before)) [] FocusEditor 1 in
  action_onclick view (diag_at 2 10 15) = Some (Some (10, 15)) /\
  action_onclick (dispatch insert3_at0 view) (diag_at 2 10 15) = Some (Some (13, 18)).
Proof.
  intros view.
  assert (Hsole : sole_anchor (diagnosticRange (diag_at 2 10 15))
                    (diagnostics sticky_before)).
  { split.
    - right. left.
    - intros r' Hr' Hshow. vm_compute in Hr'.
      repeat (apply elem_of_cons in Hr' as [->|Hr']); try reflexivity;
        try (vm_compute in Hshow; discriminate).
      by apply elem_of_nil in Hr'. }
  destruct (proj1 (action_applies_at_current_position view sticky_before
                     eq_refl (anchors_ok_built _)) _ Hsole) as [Hnow Hlater].
  split; [exact Hnow|]. apply (Hlater (mkChange 0 0 3)); reflexivity.
Defined.

Lemma tooltip_stack doc_length (check : N -> N -> bool) (s : DecorationSet) :
  forall st : Stack,
  let st' :=
    between s 0 doc_length
      (fun start end_ deco (st : Stack) =>
         if check start end_
         then (mkStack (found st ++ [spec_diagnostic deco])
                 (N.min start (stackStart st)) (N.max end_ (stackEnd st)), true)
         else (st, true)) st in
  found st' = found st ++ map (fun r => spec_diagnostic (value r))
                            (passing doc_length check s) /\
  Forall (fun r => stackStart st' <= rfrom r /\ rto r <= stackEnd st')
    (passing doc_length check s) /\
  stackStart st' <= stackStart st /\ stackEnd st <= stackEnd st' /\
  (stackStart st' = stackStart st \/
   exists r, r ∈ passing doc_length check s /\ rfrom r = stackStart st') /\
  (stackEnd st' = stackEnd st \/
   exists r, r ∈ passing doc_length check s /\ rto r = stackEnd st').
Proof.
  unfold passing, overlaps.
  induction s as [|r s IH]; intros st; simpl.
  - rewrite app_nil_r. split_and!; try done; try lia; by left.
  - destruct ((rfrom r <=? doc_length) && (0 <=? rto r)); simpl; [|apply IH].
    destruct (check (rfrom r) (rto r)); simpl; [|apply IH].
    specialize (IH (mkStack (found st ++ [spec_diagnostic (value r)])
                      (N.min (rfrom r) (stackStart st))
                      (N.max (rto r) (stackEnd st)))).
    simpl in IH. destruct IH as (Hfound & Hall & Hs & He & Hsa & Hea).
    split_and!.
    + rewrite Hfound, <- app_assoc. done.
    + constructor; [lia|done].
    + lia.
    + lia.
    + destruct Hsa as [Heq|(r' & Hr' & Heq)].
      * destruct (N.min_spec (rfrom r) (stackStart st)) as [[_ Hm]|[_ Hm]].
        -- right. exists r. split; [left|]. lia.
        -- left. lia.
      * right. exists r'. split; [by right|done].
    + destruct Hea as [Heq|(r' & Hr' & Heq)].
      * destruct (N.max_spec (rto r) (stackEnd st)) as [[_ Hm]|[_ Hm]].
        -- left. lia.
        -- right. exists r. split; [left|]. lia.
      * right. exists r'. split; [by right|done].
Qed.

(** X10.  [lintTooltip] returns [null] exactly when no anchor inside the
    document passes the check.  Otherwise it lists the diagnostics of the
    passing anchors in document order, and its range covers every one of
    them: it ends at the largest end among them and starts at the smallest
    start among them, capped at 200000000. *)
Theorem lintTooltip_spans_found view field check :
  field_lintState (state view) = Some field ->
  let stacked := passing (doc_length (state view)) check (diagnostics field) in
  match lintTooltip view check with
  | None => False
  | Some None => stacked = []
  | Some (Some tip) =>
      stacked <> [] /\
      tip_found tip = map (fun r => spec_diagnostic (value r)) stacked /\
      Forall (fun r => tip_start tip <= rfrom r /\ rto r <= tip_end tip) stacked /\
      tip_start tip <= 200000000 /\
      (tip_start tip = 200000000 \/ exists r, r ∈ stacked /\ rfrom r = tip_start tip) /\
      (exists r, r ∈ stacked /\ rto r = tip_end tip)
  end.
Proof.
  intros Hf stacked. unfold lintTooltip. rewrite Hf.
  pose proof (tooltip_stack (doc_length (state view)) check (diagnostics field)
                (mkStack [] 200000000 0)) as H.
  cbv zeta in H. fold stacked in H. cbv zeta.
  set (st := between _ _ _ _ _) in *.
  destruct H as (Hfound & Hall & Hs & He & Hsa & Hea).
  simpl in Hfound, Hs, He, Hsa, Hea.
  destruct (found st) as [|d ds] eqn:E.
  - symmetry in Hfound. by apply fmap_nil_inv in Hfound.
  - simpl. split_and!; try done.
    + intros Hnil. by rewrite Hnil in Hfound.
    + destruct Hea as [Heq|Hex]; [|done].
      destruct stacked as [|r rest]; [done|].
      apply Forall_cons in Hall as [[_ Hr] _].
      exists r. split; [left|]. lia.
Qed.

Lemma lintTooltip_spans_found_witness :
  let view := mkEditorView (mkEditorState 30 (Some sticky_before)) [] FocusEditor 1 in
  match lintTooltip view (fun from to => (from <=? 12) && (12 <=? to)) with
  | Some (Some tip) => tip_start tip <= 200000000 /\ tip_found tip <> []
  | _ => False
  end.
Proof.
  intros view.
  pose proof (lintTooltip_spans_found view sticky_before
                (fun from to => (from <=? 12) && (12 <=? to)) eq_refl) as H.
  destruct (lintTooltip view _) as [[tip|]|] eqn:E.
  - destruct H as (_ & Hfound & _ & Hstart & _). split; [exact Hstart|].
    rewrite Hfound. vm_compute. discriminate.
  - vm_compute in E. discriminate.
  - exact H.
Defined.

(** Point anchors stay points. *)
Lemma reachable_widgets_points s : reachable s -> widgets_are_points (diagnostics s).
Proof.
  induction 1 as [next|value tr next _ IH Hadm]; [constructor|].
  destruct tr as [[D|] [newState|] ch]; unfold admissible in Hadm; simpl in *.
  - unfold widgets_are_points. rewrite Decoration_set_perm.
    apply Forall_forall. intros r (d & -> & _)%list_elem_of_fmap.
    unfold diagnosticRange. by destruct (from d <? to d).
  - unfold widgets_are_points. rewrite Decoration_set_perm.
    apply Forall_forall. intros r (d & -> & _)%list_elem_of_fmap.
    unfold diagnosticRange. by destruct (from d <? to d).
  - by destruct Hadm.
  - destruct ch as [|c ch]; [exact IH|].
    rewrite update_docChanged. cbn [fst diagnostics].
    unfold widgets_are_points, RangeSet_map in *. rewrite RangeSet_of_perm.
    apply Forall_forall. intros r (r0 & -> & Hr0)%list_elem_of_fmap Hkind.
    rewrite Forall_forall in IH. unfold Range_map. cbn [rfrom rto].
    f_equal. by apply IH.
Qed.

(** X11.  In a reachable state the active-range decoration is shown at
    most once, only while the panel is open, and then it lies exactly over a
    live span anchor of the state, never over a point anchor. *)
Theorem active_range_on_live_span s :
  reachable s ->
  (length (activeDecorations s) <= 1)%nat /\
  forall a,
    a ∈ activeDecorations s ->
    is_Some (panel s) /\ value a = themeClass "lintRange.active" /\
    rfrom a < rto a /\
    exists r, r ∈ diagnostics s /\ rfrom r = rfrom a /\ rto r = rto a /\
              anchor_kind r = Span.
Proof.
  intros Hreach.
  pose proof (reachable_live s Hreach) as Hlive.
  pose proof (reachable_anchors_ok s Hreach) as Hok.
  pose proof (reachable_widgets_points s Hreach) as Hwp.
  unfold activeDecorations, selected_live in *.
  destruct (selected s) as [sel|]; [|split; [simpl; lia|intros a []%elem_of_nil]].
  destruct (panel s) as [pc|]; [|split; [simpl; lia|intros a []%elem_of_nil]].
  destruct (N.eqb_spec (sel_from sel) (sel_to sel)) as [Heq|Hne];
    [split; [simpl; lia|intros a []%elem_of_nil]|].
  split; [simpl; lia|].
  intros a ->%list_elem_of_singleton. simpl.
  destruct Hlive as (r & Hr & <-). simpl in *.
  unfold anchors_ok in Hok. rewrite Forall_forall in Hok. specialize (Hok r Hr).
  unfold widgets_are_points in Hwp. rewrite Forall_forall in Hwp. specialize (Hwp r Hr).
  simpl in *. split_and!; [by eexists|done|lia|].
  exists r. split_and!; try done.
  destruct (anchor_kind r); [done|]. specialize (Hwp eq_refl). lia.
Qed.

Lemma active_range_on_live_span_witness :
  let s := mkLintState 5 (diagnostics sticky_before) (Some LintPanel_open)
             (Some (mkSelected 10 15 (diag_at 2 10 15))) in
  (length (activeDecorations s) <= 1)%nat.
Proof.
  set (s1 := (Lint.update (create 0%nat).1
                (mkTransaction (Some [diag_at 1 2 4; diag_at 2 10 15; diag_at 3 20 20])
                   None []) 1%nat).1).
  set (s2 := (new_LintState (diagnostics s1) (Some LintPanel_open) (selected s1) 3%nat).1).
  set (s3 := (new_LintState (diagnostics s2) (panel s2)
                (Some (mkSelected 10 15 (diag_at 2 10 15))) 5%nat).1).
  assert (Hs1 : reachable s1)
    by (apply reachable_update; [apply reachable_create|exact I]).
  assert (Hs2 : reachable s2).
  { apply (reachable_update s1 (mkTransaction None (Some s2) []) 4%nat Hs1).
    apply (payload_open s1 3%nat). reflexivity. }
  assert (Hs3 : reachable s3).
  { apply (reachable_update s2 (mkTransaction None (Some s3) []) 6%nat Hs2).
    apply (payload_move s2 (diag_at 2 10 15) (mkSelected 10 15 (diag_at 2 10 15)) 5%nat).
    reflexivity. }
  exact (proj1 (active_range_on_live_span s3 Hs3)).
Defined.

End ViewFacts.


(** ** More on the commands and the panel's keys *)
Module CommandMoreFacts.

Import LintFacts CommandFacts.

Lemma closeLintPanel_closes view field :
  field_lintState (state view) = Some field ->
  is_Some (panel field) ->
  (closeLintPanel view).1 = Return true /\
  exists field',
    field_lintState (state (closeLintPanel view).2) = Some field' /\
    panel field' = None /\
    diagnostics field' = diagnostics field /\
    selected field' = selected field /\
    doc_length (state (closeLintPanel view).2) = doc_length (state view).
Proof.
  intros Hf [pc Hp]. unfold closeLintPanel. rewrite Hf, Hp. simpl.
  split; [done|]. unfold dispatch, Transaction_apply. simpl. rewrite Hf. simpl.
  eexists. by split_and!.
Qed.

Lemma openLintPanel_doc_length view :
  doc_length (state (openLintPanel view).2) = doc_length (state view).
Proof.
  unfold openLintPanel.
  destruct (field_lintState (state view)) as [field|] eqn:Hf; [|done].
  destruct (panel field) eqn:Hp.
  - rewrite Hf, Hp. done.
  - simpl. erewrite dispatch_setState by (simpl; exact Hf). simpl.
    unfold dispatch, Transaction_apply. simpl. by rewrite Hf.
Qed.

(** X12.  Opening the panel and closing it again leaves the panel closed
    (the field provides no panel), with the diagnostics, the selection and
    the document as they were; [closeLintPanel] reports [true]. *)
Theorem open_then_close_restores view field :
  field_lintState (state view) = Some field ->
  let view1 := (openLintPanel view).2 in
  (closeLintPanel view1).1 = Return true /\
  exists field2,
    field_lintState (state (closeLintPanel view1).2) = Some field2 /\
    panel field2 = None /\
    provided_panels field2 = [] /\
    diagnostics field2 = diagnostics field /\
    selected field2 = selected field /\
    doc_length (state (closeLintPanel view1).2) = doc_length (state view).
Proof.
  intros Hf view1.
  destruct (openLintPanel_opens view field Hf)
    as ((field1 & Hf1 & Hp1 & Hd1 & Hs1) & _ & _).
  fold view1 in Hf1.
  destruct (closeLintPanel_closes view1 field1 Hf1) as (Hret & field2 & H2 & Hp2 & Hd2 & Hs2 & Hl2).
  { rewrite Hp1. by eexists. }
  split; [done|]. exists field2. split_and!; try done; try congruence.
  - unfold provided_panels. by rewrite Hp2.
  - rewrite Hl2. apply openLintPanel_doc_length.
Qed.

Lemma open_then_close_restores_witness :
  (closeLintPanel (openLintPanel attached_view).2).1 = Return true.
Proof.
  exact (proj1 (open_then_close_restores attached_view (create 0%nat).1 eq_refl)).
Defined.

(** X13.  [openLintPanel] is idempotent: on the view it has just opened the
    panel of, it returns [true], dispatches nothing and changes nothing. *)
Theorem openLintPanel_idempotent view field :
  field_lintState (state view) = Some field ->
  openLintPanel (openLintPanel view).2 = (Return true, (openLintPanel view).2).
Proof.
  intros Hf.
  destruct (openLintPanel_opens view field Hf)
    as ((field1 & Hf1 & Hp1 & _) & Hfocus & _).
  set (view1 := (openLintPanel view).2) in *.
  unfold openLintPanel at 1. rewrite Hf1, Hp1. rewrite Hf1, Hp1.
  f_equal. destruct view1 as [st log fc nx]. simpl in *. by subst.
Qed.

Lemma openLintPanel_idempotent_witness :
  openLintPanel (openLintPanel attached_view).2
  = (Return true, (openLintPanel attached_view).2).
Proof.
  exact (openLintPanel_idempotent attached_view (create 0%nat).1 eq_refl).
Defined.

(** A selection inside the document passes [setSelection]; one that points
    beyond it is refused. *)
Lemma setSelection_single_inside len anchor head tr :
  anchor <= len -> head <= len ->
  setSelection_single len anchor head tr = Some tr.
Proof.
  intros Ha Hh. unfold setSelection_single.
  by rewrite (proj2 (N.ltb_ge len anchor) Ha), (proj2 (N.ltb_ge len head) Hh).
Qed.

Lemma setSelection_single_outside len anchor head tr :
  len < anchor \/ len < head ->
  setSelection_single len anchor head tr = None.
Proof.
  intros H. unfold setSelection_single.
  destruct (N.ltb_spec len anchor), (N.ltb_spec len head); simpl; try done; lia.
Qed.

(** X14.  [moveSelection] for an item whose diagnostic has an anchor looks
    up the first anchor of that diagnostic.  If it lies inside the document,
    one transaction is dispatched, after which the selection is that anchor
    (a live entry of the unchanged anchor set), with the panel as it was.
    If it points beyond the end of the document, setting the editor
    selection fails: the call ends in an exception and nothing is
    dispatched.  For an item whose diagnostic has no anchor the call does
    nothing.  With items present, an index that names no item is an
    exception; with no items the call returns at once. *)
Theorem moveSelection_selects_item view field p :
  field_lintState (state view) = Some field ->
  (forall index item,
      items p !! index = Some item ->
      match findDiagnostic (diagnostics field) (Some (item_diagnostic item)) 0 with
      | Some selection =>
          Diagnostic_same (sel_diagnostic selection) (item_diagnostic item) = true /\
          resolves selection (diagnostics field) /\
          (sel_from selection <= doc_length (state view) ->
           sel_to selection <= doc_length (state view) ->
           exists view' field' tr,
             moveSelection index p view = Some view' /\
             dispatched view' = dispatched view ++ [tr] /\
             field_lintState (state view') = Some field' /\
             selected field' = Some selection /\
             resolves selection (diagnostics field') /\
             diagnostics field' = diagnostics field /\
             panel field' = panel field /\
             doc_length (state view') = doc_length (state view)) /\
          (doc_length (state view) < sel_from selection \/
           doc_length (state view) < sel_to selection ->
           moveSelection index p view = None)
      | None => moveSelection index p view = Some view
      end) /\
  (forall index,
      items p !! index = None ->
      moveSelection index p view = match items p with [] => Some view | _ :: _ => None end).
Proof.
  intros Hf. split.
  - intros index item Hitem. unfold moveSelection. rewrite Hf, Hitem.
    destruct (items p) as [|it its] eqn:Hits; [by rewrite lookup_nil in Hitem|].
    destruct (findDiagnostic (diagnostics field) (Some (item_diagnostic item)) 0)
      as [selection|] eqn:E; [|done].
    split_and!.
    + rewrite findDiagnostic_find in E.
      destruct (find _ (diagnostics field)) as [r|] eqn:Hfind; [|done].
      injection E as <-. apply find_some_elem in Hfind as [_ Hr].
      by apply andb_true_iff in Hr as [_ Hr].
    + by eapply findDiagnostic_resolves.
    + intros Hfrom Hto. rewrite (setSelection_single_inside _ _ _ _ Hfrom Hto).
      simpl. unfold dispatch, Transaction_apply. simpl. rewrite Hf. simpl.
      eexists _, _, _. split_and!; try done.
      by eapply findDiagnostic_resolves.
    + intros Hout. by rewrite (setSelection_single_outside _ _ _ _ Hout).
  - intros index Hnone. unfold moveSelection. rewrite Hf, Hnone.
    by destruct (items p).
Qed.

Lemma moveSelection_selects_item_witness :
  (let view := mkEditorView (mkEditorState 20 (Some field_ACD)) [] FocusEditor 2 in
   exists view' field',
     moveSelection 2 panel_ABC view = Some view' /\
     field_lintState (state view') = Some field' /\
     selected field' = Some (mkSelected 10 12 diag_C)) /\
  (let view := mkEditorView (mkEditorState 20 (Some field_E)) [] FocusEditor 2 in
   moveSelection 0 panel_E view = None).
Proof.
  split; intros view.
  - pose proof (proj1 (moveSelection_selects_item view field_ACD panel_ABC eq_refl)
                  2%nat item_C eq_refl) as H.
    change (findDiagnostic (diagnostics field_ACD) (Some (item_diagnostic item_C)) 0)
      with (Some (mkSelected 10 12 diag_C)) in H.
    destruct H as (_ & _ & H & _).
    destruct H as (view' & field' & tr & Hmove & _ & Hfield & Hsel & _);
      [simpl; lia|simpl; lia|].
    exists view', field'. by split_and!.
  - pose proof (proj1 (moveSelection_selects_item view field_E panel_E eq_refl)
                  0%nat item_E eq_refl) as H.
    change (findDiagnostic (diagnostics field_E) (Some (item_diagnostic item_E)) 0)
      with (Some (mkSelected 3 30 diag_E)) in H.
    destruct H as (_ & _ & _ & H). apply H. right. simpl. lia.
Defined.

(** *** Keys *)

Local Open Scope Z_scope.

Lemma index_from_range its d i :
  index_from its d i = -1 \/ i <= index_from its d i < i + Z.of_nat (length its).
Proof.
  revert i. induction its as [|it its IH]; intros i; simpl; [by left|].
  destruct (Diagnostic_same (item_diagnostic it) d); [right; lia|].
  destruct (IH (i + 1)) as [->|H]; [by left|right; lia].
Qed.

Lemma moveSelection_at_in_range index p view field :
  field_lintState (state view) = Some field ->
  Forall (in_document (doc_length (state view))) (diagnostics field) ->
  0 <= index < Z.of_nat (length (items p)) ->
  is_Some (moveSelection_at index p view).
Proof.
  intros Hf Hdoc Hrange. unfold moveSelection_at, moveSelection. rewrite Hf.
  destruct (items p) as [|it its] eqn:Hits; [by eexists|].
  assert ((index <? 0) = false) as -> by (apply Z.ltb_ge; lia).
  destruct (lookup_lt_is_Some_2 (it :: its) (Z.to_nat index)) as [item ->]; [lia|].
  destruct (findDiagnostic _ _ _) as [selection|] eqn:E; [|by eexists].
  apply findDiagnostic_resolves in E as (r & Hr & <-).
  rewrite Forall_forall in Hdoc. destruct (Hdoc r Hr) as [Hle Hlen].
  rewrite setSelection_single_inside; simpl; [by eexists| |done].
  clear -Hle Hlen. apply N.le_trans with (rto r); done.
Qed.

Lemma rem_up_in_range i len :
  -1 <= i < len -> 0 < len -> 0 <= Z.rem (i - 1 + len) len < len.
Proof.
  intros Hi Hlen.
  destruct (Z.eq_dec (i - 1 + len) (-1)) as [Heq|Hne].
  - assert (len = 1) as -> by lia. rewrite Z.rem_1_r. lia.
  - apply Z.rem_bound_pos; lia.
Qed.

(** X15.  With the lint field installed and every anchor inside the
    document no key makes the listener throw: the index that the arrow
    keys, Home and End pass to [moveSelection] always names an item.
    ArrowDown on the last item goes to the first and ArrowUp on the first
    goes to the last. *)
Theorem keydown_never_throws keyCode p view field :
  field_lintState (state view) = Some field ->
  Forall (in_document (doc_length (state view))) (diagnostics field) ->
  is_Some (keydown keyCode p view) /\
  (selectedIndex p view = Some (Z.of_nat (length (items p)) - 1) ->
   keydown 40 p view = moveSelection_at 0 p view) /\
  (selectedIndex p view = Some 0 -> items p <> [] ->
   keydown 38 p view = moveSelection_at (Z.of_nat (length (items p)) - 1) p view).
Proof.
  intros Hf Hdoc.
  set (len := Z.of_nat (length (items p))).
  assert (Hidx : exists i, selectedIndex p view = Some i /\ -1 <= i < Z.max len 0 + 0
                           \/ selectedIndex p view = Some i /\ i = -1).
  { unfold selectedIndex. rewrite Hf. destruct (selected field) as [sel|].
    - destruct (index_from_range (items p) (sel_diagnostic sel) 0) as [->|H].
      + exists (-1). by right.
      + eexists. left. split; [done|]. fold len in H. lia.
    - exists (-1). by right. }
  assert (Hempty : items p = [] -> forall k, moveSelection_at k p view = Some view).
  { intros Hnil k. unfold moveSelection_at. by rewrite Hnil. }
  split_and!.
  - unfold keydown. fold len.
    destruct (keyCode =? 27); [by eexists|].
    destruct (decide (items p = [])) as [Hnil|Hnonempty].
    + assert (Hm : forall k, moveSelection_at k p view = Some view)
        by (by apply Hempty).
      destruct Hidx as (i & [[-> _]|[-> _]]);
        repeat (match goal with |- context [if ?b then _ else _] => destruct b end);
        rewrite ?Hm; by eexists.
    + assert (Hlen : 0 < len).
      { unfold len. destruct (items p); [done|]. simpl. lia. }
      assert (Hsel : exists i, selectedIndex p view = Some i /\ -1 <= i < len).
      { destruct Hidx as (i & [[Hs Hr]|[Hs Hr]]); exists i; split; try done; lia. }
      destruct Hsel as (i & -> & Hi).
      destruct (keyCode =? 38).
      { apply (moveSelection_at_in_range _ _ _ field Hf Hdoc). fold len.
        by apply rem_up_in_range. }
      destruct (keyCode =? 40).
      { apply (moveSelection_at_in_range _ _ _ field Hf Hdoc). fold len.
        apply Z.rem_bound_pos; lia. }
      destruct (keyCode =? 36).
      { apply (moveSelection_at_in_range _ _ _ field Hf Hdoc). fold len. lia. }
      destruct (keyCode =? 35).
      { apply (moveSelection_at_in_range _ _ _ field Hf Hdoc). fold len. lia. }
      destruct (keyCode =? 13); by eexists.
  - intros Hsel. unfold keydown. fold len. simpl. rewrite Hsel.
    destruct (decide (items p = [])) as [Hnil|Hnonempty].
    + by rewrite !(Hempty Hnil).
    + replace (len - 1 + 1) with len by lia. rewrite Z.rem_same; [done|].
      unfold len. destruct (items p); [done|]. simpl. lia.
  - intros Hsel Hne. unfold keydown. fold len. simpl. rewrite Hsel.
    assert (Hlen : 0 < len).
    { unfold len. destruct (items p); [done|]. simpl. lia. }
    f_equal. replace (0 - 1 + len) with (len - 1) by lia.
    apply Z.rem_small. lia.
Qed.

Lemma keydown_never_throws_witness :
  is_Some (keydown 38 panel_ABC
             (mkEditorView (mkEditorState 20 (Some field_ACD)) [] FocusEditor 2)).
Proof.
  refine (proj1 (keydown_never_throws 38 panel_ABC
                  (mkEditorView (mkEditorState 20 (Some field_ACD)) [] FocusEditor 2)
                  field_ACD eq_refl _)).
  unfold in_document. apply (bool_decide_unpack _). vm_compute. exact I.
Defined.

End CommandMoreFacts.


(** ** More on the re-lint scheduler *)
Module SchedulerMoreFacts.

Import SchedulerFacts.

Local Open Scope Z_scope.

Section WithSource.

Variable source : EditorView -> list Diagnostic.

Lemma deliver_cons e es w :
  deliver source (e :: es) w = deliver source es (handle source e w).
Proof. reflexivity. Qed.

Lemma deliver_deadline_after start es : forall past w,
  deadline_after start past w ->
  deliverable_run source es w ->
  deadline_after start (past ++ edit_times es) (deliver source es w).
Proof.
  induction es as [|e es IH]; intros past w Hinv Hrun.
  - simpl. by rewrite app_nil_r.
  - rewrite deliver_cons.
    destruct Hrun as [Hdel Hrun]. destruct Hinv as (Hs & Hd & Hpast).
    destruct e as [t ch|due t]; simpl in Hdel.
    + destruct Hdel as [Hclock Hch]. destruct ch as [|c ch]; [done|].
      destruct (handle_edit_plugin source t c ch w) as (Hc & Hl & _).
      replace (past ++ edit_times (Edit t (c :: ch) :: es))
        with ((past ++ [t]) ++ edit_times es) by (by rewrite <- app_assoc).
      apply IH; [|done]. unfold deadline_after. rewrite Hc, Hl.
      split_and!; [lia|lia|]. apply Forall_app. split.
      * eapply Forall_impl; [exact Hpast|]. simpl. intros; lia.
      * constructor; [lia|constructor].
    + destruct Hdel as (_ & Hclock & _).
      destruct (handle_timer_plugin source due t w) as (Hc & Hl & _).
      change (edit_times (TimerFires due t :: es)) with (edit_times es).
      apply IH; [|done]. unfold deadline_after. rewrite Hc, Hl.
      split_and!; [lia|lia|].
      eapply Forall_impl; [exact Hpast|]. simpl. intros; lia.
Qed.

Lemma constructor_deadline_after start v :
  deadline_after start [] (constructor start v).
Proof. unfold deadline_after. simpl. split_and!; [lia|lia|constructor]. Qed.

End WithSource.

(** X16.  The quiet period is kept: whenever a timer callback invokes the
    source, every document edit made so far, and the start of the plugin,
    lie at least the delay less 10 in the past. *)
Theorem source_runs_after_quiet_period source start v es due t :
  deliverable_run source es (constructor start v) ->
  let w := deliver source es (constructor start v) in
  clock w <= t ->
  invoked (handle source (TimerFires due t) w) <> invoked w ->
  start + (LintDelay - 10) <= t /\
  Forall (fun e => e + (LintDelay - 10) <= t) (edit_times es).
Proof.
  intros Hrun w Hclock Hinv.
  destruct (deliver_deadline_after source start es [] (constructor start v)
              (constructor_deadline_after start v) Hrun) as (Hs & Hd & Hpast).
  fold w in Hs, Hd, Hpast. simpl in Hpast.
  destruct (handle_timer_plugin source due t w) as (_ & _ & [Hsame|[_ Hlate]]);
    [done|].
  split; [lia|]. eapply Forall_impl; [exact Hpast|]. simpl. intros; lia.
Qed.

Lemma source_runs_after_quiet_period_witness :
  Forall (fun e => e + (LintDelay - 10) <= 650)
    (edit_times [Edit 0 type_char; Edit 150 type_char; TimerFires 500 500]).
Proof.
  refine (proj2 (source_runs_after_quiet_period redeclared_source 0 attached_view
                   [Edit 0 type_char; Edit 150 type_char; TimerFires 500 500]
                   650 650 _ _ _)).
  - simpl. split_and!; try done; try lia; try (vm_compute; by left).
  - vm_compute. discriminate.
  - vm_compute. discriminate.
Defined.

(** X17.  No scheduled run is lost: right after any document edit exactly
    one timer is pending, it is due no later than the delay after that edit,
    and the deadline is that edit plus the delay. *)
Theorem edit_leaves_one_timer source w t ch :
  Scheduler.reachable source w ->
  deliverable (Edit t ch) w ->
  let w' := handle source (Edit t ch) w in
  lintTime (plugin w') = t + LintDelay /\
  set (plugin w') = true /\
  invoked w' = invoked w /\
  exists due, timers w' = [due] /\ due <= t + LintDelay.
Proof.
  intros Hreach [Hclock Hch] w'. destruct ch as [|c ch]; [done|].
  destruct (handle_edit_plugin source t c ch w) as (Hc & Hl & Hset & Hinv & Hts).
  fold w' in Hc, Hl, Hset, Hinv, Hts.
  pose proof (reachable_slot source w Hreach) as Hslot.
  destruct (reachable_due_by_deadline source w Hreach) as [Hdue Hlt].
  unfold timer_slot in Hslot.
  split_and!; try done. rewrite Hts.
  destruct (set (plugin w)).
  - destruct Hslot as [due Heq]. exists due. split; [done|].
    rewrite Heq in Hdue. apply Forall_cons in Hdue as [Hdue _]. lia.
  - rewrite Hslot. eexists. split; [done|]. lia.
Qed.

Lemma edit_leaves_one_timer_witness :
  exists due, timers (handle redeclared_source (Edit 150 type_char)
                        (constructor 0 attached_view)) = [due] /\
              due <= 150 + LintDelay.
Proof.
  refine (proj2 (proj2 (proj2 (edit_leaves_one_timer redeclared_source
                                 (constructor 0 attached_view) 150 type_char _ _)))).
  - apply reachable_start.
  - split; [vm_compute; discriminate|discriminate].
Defined.

(** X18.  Without any edit the source is first invoked exactly the delay
    after the plugin was constructed, once, and then no timer is left. *)
Theorem first_run_after_delay source start v :
  exists w,
    simulate source 3 [] (constructor start v) = Some w /\
    invoked w = [start + LintDelay] /\ timers w = [] /\
    set (plugin w) = false.
Proof.
  pose proof (constructor_armed start v) as Harmed.
  assert (Hlate : start + LintDelay - 10 <= start + LintDelay) by lia.
  pose proof (handle_timer_invokes source _ _ _ Harmed Hlate) as Hinv.
  pose proof (handle_timer_late source _ _ _ Harmed Hlate) as Hsettled.
  eexists. split.
  - rewrite (simulate_timer source 2 [] _ _ _ Harmed I).
    apply (simulate_settled source 1 _ _ Hsettled).
  - destruct Hsettled as (T & _ & _ & Hts & Hp). split_and!; [done|done|].
    by rewrite Hp.
Qed.

End SchedulerMoreFacts.
